(** * The unmanaged-evolution population manager
    (experiments/unmanaged/manager.py)

    A shallow embedding of [OnlineIndividual] and [Population].  Python
    objects live in a heap indexed by addresses, so that two names for one
    object stay aliased; every method is a computation in a state and
    exception monad over the record [World].

    Python floats (ages, times, distances, the mating multiplier) are
    idealised as rationals: exact arithmetic, a total order, no NaN.  The
    collaborators that are imported, not defined, by the module (genotype
    operators, the simulator connection, [Vector3.norm], the random
    generator) are the fields of the class [Ports]. *)

From Stdlib Require Import ZArith QArith Lia Lqa.
From stdpp Require Import base option list gmap strings pretty.

(** ** Module constants (lines 25-38) *)

Definition ROBOT_BATTERY : Z := 5000.
Definition INDIVIDUAL_MAX_AGE : Q := 120.
Definition INDIVIDUAL_MAX_AGE_SIGMA : Q := 1.
Definition SEED_POPULATION_START : Z := 50.
Definition MIN_POP : Z := 20.
Definition MAX_POP : Z := 100.
Definition Z_SPAWN_DISTANCE : Q := 5 # 10.
Definition LIMIT_X : Q := 4.
Definition LIMIT_Y : Q := 4.
Definition MATURE_AGE : Q := 30.
Definition MATE_DISTANCE : Q := 6 # 10.
Definition MATING_COOLDOWN : Q := 10.
Definition COUPLE_MATING_LIMIT : Z := 5.
Definition MATING_INCREASE_RATE : Q := 1.

(** ** Numbers *)

(** [a < b] and [a > b] on floats, as booleans. *)
Definition Qltb (a b : Q) : bool :=
  match (a ?= b)%Q with Lt => true | _ => false end.
Definition Qgtb (a b : Q) : bool := Qltb b a.

(** ** Data *)

(** Modelled from the spec: [pyrevolve.SDF.math.Vector3] is not under
    src/; a position is a point with three float coordinates. *)
Record Vector3 := V3 { vx : Q; vy : Q; vz : Q }.

(** Modelled from the spec: [Vector3.__sub__] is not under src/; the spec
    calls its result "the position difference", taken componentwise. *)
Definition v3_sub (a b : Vector3) : Vector3 :=
  V3 (vx a - vx b) (vy a - vy b) (vz a - vz b).

(** [diff.z = 0] *)
Definition v3_flat (a : Vector3) : Vector3 := V3 (vx a) (vy a) 0.

(** Modelled from the spec: the class of [individual.manager], the
    simulator-side handle of an inserted robot, is not under src/.  The
    record has the attributes the module reads and writes: age, charge,
    positions, the time of the last update, the last-mate time, the
    mate counts by partner name and the dead flag. *)
Record Manager := {
  name : string;
  m_age : Q;
  m_charge : Q;
  last_position : Vector3;
  starting_position : Vector3;
  last_update : Q;
  last_mate : option Q;
  mated_with : gmap string Z;
  dead : bool
}.

Definition set_last_mate (t : option Q) (m : Manager) : Manager :=
  {| name := name m; m_age := m_age m; m_charge := m_charge m;
     last_position := last_position m;
     starting_position := starting_position m;
     last_update := last_update m; last_mate := t;
     mated_with := mated_with m; dead := dead m |}.

Definition set_mated_with (d : gmap string Z) (m : Manager) : Manager :=
  {| name := name m; m_age := m_age m; m_charge := m_charge m;
     last_position := last_position m;
     starting_position := starting_position m;
     last_update := last_update m; last_mate := last_mate m;
     mated_with := d; dead := dead m |}.

(** Python exceptions that the module raises or lets through. *)
Inductive exn :=
  NoPositionFound | BreakIt | TypeError | AttributeError | ValueError
| ZeroDivisionError.

#[export] Instance exn_eq_dec : EqDecision exn.
Proof. solve_decision. Defined.

(** Outcome of a call.  [OutOfFuel] is not a Python outcome: it marks a
    loop of the model that was cut before the Python loop would stop. *)
Inductive result (A : Type) :=
| Ok (a : A)
| Raise (e : exn)
| OutOfFuel.
Arguments Ok {A} a.
Arguments Raise {A} e.
Arguments OutOfFuel {A}.

(** Addresses of [OnlineIndividual] objects. *)
Abbreviation addr := nat.

(** Collaborators imported by the module. *)
Class Ports := {
  Genotype : Type;
  (** [random_initialization(PLASTICODING_CONF, _id)] *)
  random_initialization : Z -> Genotype;
  (** [standard_crossover(parents, PLASTICODING_CONF, CROSSOVER_CONF)] *)
  standard_crossover : list Genotype -> Genotype;
  (** [standard_mutation(genotype, MUTATION_CONF)] *)
  standard_mutation : Genotype -> Genotype;
  (** [genotype.id = n] *)
  genotype_set_id : Z -> Genotype -> Genotype;
  (** [Vector3.norm] *)
  norm : Vector3 -> Q;
  (** the [k]-th sample of [random.random()] *)
  random_random : nat -> Q;
  (** the [k]-th sample of [random.gauss(mu, sigma)] *)
  random_gauss : nat -> Q -> Q -> Q;
  (** [connection.insert_robot(phenotype, pos, life_duration)]: the handle
      the simulator hands back *)
  insert_robot : Genotype -> Vector3 -> Q -> Manager
}.

Section Model.
Context `{Ports}.

(** [OnlineIndividual] instance attributes (lines 68-71). *)
Record Individual := {
  genotype : Genotype;
  manager : option Manager;
  max_age : Q
}.

Definition set_manager (m : option Manager) (i : Individual) : Individual :=
  {| genotype := genotype i; manager := m; max_age := max_age i |}.

Definition set_genotype (g : Genotype) (i : Individual) : Individual :=
  {| genotype := g; manager := manager i; max_age := max_age i |}.

(** Positional arguments of a constructor call. *)
Inductive pyval := VGenotype (g : Genotype) | VFloat (q : Q).

(** [OnlineIndividual.__init__(self, genotype, max_age)]: both positional
    parameters are required, so a call with any other number of
    arguments raises [TypeError]. *)
Definition OnlineIndividual_new (args : list pyval) : Individual + exn :=
  match args with
  | [VGenotype g; VFloat a] =>
      inl {| genotype := g; manager := None; max_age := a |}
  | _ => inr TypeError
  end.

(** Calls that leave the process: the simulator and the export folder.
    [EvMate a b n] is a ghost event: [a.mate(b, ...)] was called while the
    live list had [n] entries. *)
Inductive event :=
| EvInsert (a : addr) (pos : Vector3)
| EvUnregister (a : addr)
| EvExport (a : addr)
| EvMate (a b : addr) (n : nat).

(** The [Population] object (lines 212-222), the heap of individuals it
    refers to, the number of random samples drawn so far and the trace of
    events, most recent first. *)
Record World := {
  heap : gmap addr Individual;
  _robots : list addr;
  _robot_id_counter : Z;
  _mating_multiplier : Q;
  _mating_increase_rate : Q;
  _recent_children : list addr;
  _recent_children_start_time : Q;
  _recent_children_delta_time : Q;
  rng : nat;
  trace : list event
}.

Definition with_heap (h : gmap addr Individual) (w : World) : World :=
  {| heap := h; _robots := _robots w;
     _robot_id_counter := _robot_id_counter w;
     _mating_multiplier := _mating_multiplier w;
     _mating_increase_rate := _mating_increase_rate w;
     _recent_children := _recent_children w;
     _recent_children_start_time := _recent_children_start_time w;
     _recent_children_delta_time := _recent_children_delta_time w;
     rng := rng w; trace := trace w |}.

Definition with_robots (l : list addr) (w : World) : World :=
  {| heap := heap w; _robots := l;
     _robot_id_counter := _robot_id_counter w;
     _mating_multiplier := _mating_multiplier w;
     _mating_increase_rate := _mating_increase_rate w;
     _recent_children := _recent_children w;
     _recent_children_start_time := _recent_children_start_time w;
     _recent_children_delta_time := _recent_children_delta_time w;
     rng := rng w; trace := trace w |}.

Definition with_counter (c : Z) (w : World) : World :=
  {| heap := heap w; _robots := _robots w;
     _robot_id_counter := c;
     _mating_multiplier := _mating_multiplier w;
     _mating_increase_rate := _mating_increase_rate w;
     _recent_children := _recent_children w;
     _recent_children_start_time := _recent_children_start_time w;
     _recent_children_delta_time := _recent_children_delta_time w;
     rng := rng w; trace := trace w |}.

Definition with_multiplier (m : Q) (w : World) : World :=
  {| heap := heap w; _robots := _robots w;
     _robot_id_counter := _robot_id_counter w;
     _mating_multiplier := m;
     _mating_increase_rate := _mating_increase_rate w;
     _recent_children := _recent_children w;
     _recent_children_start_time := _recent_children_start_time w;
     _recent_children_delta_time := _recent_children_delta_time w;
     rng := rng w; trace := trace w |}.

Definition with_recent (l : list addr) (w : World) : World :=
  {| heap := heap w; _robots := _robots w;
     _robot_id_counter := _robot_id_counter w;
     _mating_multiplier := _mating_multiplier w;
     _mating_increase_rate := _mating_increase_rate w;
     _recent_children := l;
     _recent_children_start_time := _recent_children_start_time w;
     _recent_children_delta_time := _recent_children_delta_time w;
     rng := rng w; trace := trace w |}.

Definition with_start_time (t : Q) (w : World) : World :=
  {| heap := heap w; _robots := _robots w;
     _robot_id_counter := _robot_id_counter w;
     _mating_multiplier := _mating_multiplier w;
     _mating_increase_rate := _mating_increase_rate w;
     _recent_children := _recent_children w;
     _recent_children_start_time := t;
     _recent_children_delta_time := _recent_children_delta_time w;
     rng := rng w; trace := trace w |}.

Definition with_rng (k : nat) (w : World) : World :=
  {| heap := heap w; _robots := _robots w;
     _robot_id_counter := _robot_id_counter w;
     _mating_multiplier := _mating_multiplier w;
     _mating_increase_rate := _mating_increase_rate w;
     _recent_children := _recent_children w;
     _recent_children_start_time := _recent_children_start_time w;
     _recent_children_delta_time := _recent_children_delta_time w;
     rng := k; trace := trace w |}.

Definition with_trace (t : list event) (w : World) : World :=
  {| heap := heap w; _robots := _robots w;
     _robot_id_counter := _robot_id_counter w;
     _mating_multiplier := _mating_multiplier w;
     _mating_increase_rate := _mating_increase_rate w;
     _recent_children := _recent_children w;
     _recent_children_start_time := _recent_children_start_time w;
     _recent_children_delta_time := _recent_children_delta_time w;
     rng := rng w; trace := t |}.

(** [Population.__init__] (lines 212-222), with nothing allocated yet. *)
Definition Population_init : World :=
  {| heap := ∅; _robots := []; _robot_id_counter := 0;
     _mating_multiplier := 1;
     _mating_increase_rate := MATING_INCREASE_RATE;
     _recent_children := [];
     _recent_children_start_time := - (1);
     _recent_children_delta_time := 30;
     rng := 0; trace := [] |}.

(** ** The monad: a state that survives exceptions *)

Definition M (A : Type) : Type := World -> World * result A.

#[export] Instance M_ret : MRet M := fun A a w => (w, Ok a).

#[export] Instance M_bind : MBind M := fun A B f m w =>
  match m w with
  | (w', Ok a) => f a w'
  | (w', Raise e) => (w', Raise e)
  | (w', OutOfFuel) => (w', OutOfFuel)
  end.

Definition raise {A} (e : exn) : M A := fun w => (w, Raise e).
Definition out_of_fuel {A} : M A := fun w => (w, OutOfFuel).

(** A call that returns ([inl]) or raises ([inr]) without touching the
    world. *)
Definition lift {A} (r : A + exn) : M A := fun w =>
  match r with
  | inl a => (w, Ok a)
  | inr e => (w, Raise e)
  end.

Definition gets {A} (f : World -> A) : M A := fun w => (w, Ok (f w)).
Definition modify (f : World -> World) : M unit := fun w => (f w, Ok tt).
Definition emit (e : event) : M unit :=
  modify (fun w => with_trace (e :: trace w) w).

(** [try: body / except E: handler], for one exception class [E]. *)
Definition try_except {A} (body : M A) (E : exn) (handler : M A) : M A :=
  fun w =>
    match body w with
    | (w', Raise e) =>
        if decide (e = E) then handler w' else (w', Raise e)
    | r => r
    end.

(** ** Heap access *)

(** Dereference an individual.  Python has no dangling reference; an
    address outside the heap behaves as an object without attributes. *)
Definition obj (a : addr) : M Individual := fun w =>
  match heap w !! a with
  | Some i => (w, Ok i)
  | None => (w, Raise AttributeError)
  end.

Definition store (a : addr) (i : Individual) : M unit :=
  modify (fun w => with_heap (<[a := i]> (heap w)) w).

(** A new object gets an address that no object has. *)
Definition alloc (i : Individual) : M addr := fun w =>
  let a := fresh (dom (heap w)) in
  (with_heap (<[a := i]> (heap w)) w, Ok a).

(** [self.manager.<attribute>]: [None] has no attribute. *)
Definition manager_of (a : addr) : M Manager :=
  i ← obj a;
  match manager i with
  | Some m => mret m
  | None => raise AttributeError
  end.

Definition write_manager (a : addr) (m : Manager) : M unit :=
  i ← obj a; store a (set_manager (Some m) i).

(** ** OnlineIndividual (lines 85-171) *)

Definition age (self : addr) : M Q :=
  i ← obj self;
  mret (match manager i with Some m => m_age m | None => 0%Q end).

Definition charge (self : addr) : M Q :=
  i ← obj self;
  mret (match manager i with Some m => m_charge m | None => 0%Q end).

Definition pos (self : addr) : M (option Vector3) :=
  i ← obj self;
  mret (match manager i with
        | Some m => Some (last_position m)
        | None => None
        end).

(** The argument [other] of [distance_to] is a [Vector3] or an
    individual ([isinstance(other, Vector3)]). *)
Inductive target := AtVector (v : Vector3) | AtIndividual (b : addr).

(** [my_pos - other_pos] fails when either side is [None]. *)
Definition distance_to (self : addr) (other : target) (planar : bool) : M Q :=
  my_pos ← pos self;
  other_pos ← match other with
               | AtVector v => mret (Some v)
               | AtIndividual b => pos b
               end;
  match my_pos, other_pos with
  | Some p, Some q =>
      let diff := v3_sub p q in
      mret (norm (if planar then v3_flat diff else diff))
  | _, _ => raise TypeError
  end.

Definition mature (self : addr) : M bool :=
  a ← age self; mret (Qgtb a MATURE_AGE).

Definition _wants_to_mate (self other : addr) (mating_multiplier : Q) : M bool :=
  mat ← mature self;
  if negb mat then mret false else
  d ← distance_to self (AtIndividual other) true;
  if Qgtb d (MATE_DISTANCE * mating_multiplier) then mret false else
  ms ← manager_of self;
  if match last_mate ms with
     | Some t => Qltb (last_update ms - t) MATING_COOLDOWN
     | None => false
     end
  then mret false else
  mo ← manager_of other;
  let mate_count := default 0%Z (mated_with ms !! name mo) in
  if (mate_count >? COUPLE_MATING_LIMIT)%Z then mret false else
  mret true.

(** Lines 161-166: the mating is saved on [self] only. *)
Definition save_mating (self other : addr) : M unit :=
  ms ← manager_of self;
  write_manager self (set_last_mate (Some (last_update ms)) ms);;
  mo ← manager_of other;
  ms ← manager_of self;
  let k := name mo in
  write_manager self
    (set_mated_with
       (match mated_with ms !! k with
        | Some c => <[k := (c + 1)%Z]> (mated_with ms)
        | None => <[k := 1%Z]> (mated_with ms)
        end) ms).

Section Mating.
(** What the expression [OnlineIndividual(genotype)] of line 171
    evaluates to.  The definitions of this section are the source's for
    any outcome of that one expression; [child_as_written] below is its
    outcome under the class's own [__init__]. *)
Variable new_child : Genotype -> Individual + exn.

Definition mate (self other : addr) (mating_distance_multiplier : Q)
  : M (option addr) :=
  w1 ← _wants_to_mate self other mating_distance_multiplier;
  w2 ← (if w1 then _wants_to_mate other self mating_distance_multiplier
        else mret false);
  if negb (w1 && w2) then mret None else
  save_mating self other;;
  s ← obj self;
  o ← obj other;
  let genotype1 := standard_crossover [genotype s; genotype o] in
  let genotype2 := standard_mutation genotype1 in
  child ← lift (new_child genotype2);
  c ← alloc child;
  mret (Some c).

End Mating.

(** Line 171 passes one argument to a constructor that requires two. *)
Definition child_as_written (g : Genotype) : Individual + exn :=
  OnlineIndividual_new [VGenotype g].

(** ** Population (lines 227-380) *)

Definition len_robots : M Z :=
  gets (fun w => Z.of_nat (length (_robots w))).

Definition append_robot (a : addr) : M unit :=
  modify (fun w => with_robots (_robots w ++ [a]) w).

(** [export]: the life record reads attributes of [self.manager]. *)
Definition export (self : addr) : M unit :=
  manager_of self;; emit (EvExport self).

(** Lines 227-239.  [develop] and [update_substrate] build the phenotype
    and touch nothing the manager reads. *)
Definition _insert_individual (individual : addr) (p : Vector3) : M addr :=
  i ← obj individual;
  emit (EvInsert individual p);;
  store individual
    (set_manager (Some (insert_robot (genotype i) p (max_age i))) i);;
  export individual;;
  mret individual.

(** [list.remove(x)]: drops the first occurrence, [None] when absent. *)
Fixpoint list_remove (x : addr) (l : list addr) : option (list addr) :=
  match l with
  | [] => None
  | y :: l' =>
      if decide (y = x) then Some l'
      else match list_remove x l' with
           | Some r => Some (y :: r)
           | None => None
           end
  end.

Definition _remove_individual (individual : addr) : M unit :=
  l ← gets _robots;
  match list_remove individual l with
  | None => raise ValueError
  | Some l' =>
      modify (with_robots l');;
      export individual;;
      emit (EvUnregister individual)
  end.

(** The loop of [_is_pos_occupied] does not change the list it walks. *)
Fixpoint is_pos_occupied_from (l : list addr) (p : Vector3) (distance : Q)
  : M bool :=
  match l with
  | [] => mret false
  | robot :: l' =>
      d ← distance_to robot (AtVector p) true;
      if Qltb d distance then mret true
      else is_pos_occupied_from l' p distance
  end.

Definition _is_pos_occupied (p : Vector3) (distance : Q) : M bool :=
  l ← gets _robots; is_pos_occupied_from l p distance.

(** [random.uniform(a, b)] is [a + (b - a) * random()]. *)
Definition random_uniform (a b : Q) : M Q := fun w =>
  (with_rng (S (rng w)) w, Ok (a + (b - a) * random_random (rng w))%Q).

Definition gauss (mu sigma : Q) : M Q := fun w =>
  (with_rng (S (rng w)) w, Ok (random_gauss (rng w) mu sigma)).

Definition random_spawn_pos : M Vector3 :=
  x ← random_uniform (- LIMIT_X) LIMIT_X;
  y ← random_uniform (- LIMIT_Y) LIMIT_Y;
  mret (V3 x y Z_SPAWN_DISTANCE).

(** The [while] loop of lines 260-264, entered with the candidate [p]
    and the counter [i]. *)
Fixpoint spawn_loop (fuel : nat) (distance : Q) (n_tries i : Z) (p : Vector3)
  : M Vector3 :=
  occupied ← _is_pos_occupied p distance;
  if occupied : bool then
    let i := (i + 1)%Z in
    if (i >? n_tries)%Z then raise NoPositionFound
    else match fuel with
         | O => out_of_fuel
         | S fuel' =>
             p' ← random_spawn_pos;
             spawn_loop fuel' distance n_tries i p'
         end
  else mret p.

(** The counter runs from 1 to [n_tries], so [n_tries] rounds are enough
    fuel ([spawn_loop_fuel] below). *)
Definition _free_random_spawn_pos (distance : Q) (n_tries : Z) : M Vector3 :=
  p ← random_spawn_pos;
  spawn_loop (Z.to_nat n_tries) distance n_tries 1 p.

Definition default_distance : Q := (MATE_DISTANCE + (1 # 10))%Q.
Definition default_tries : Z := 100.

Definition _generate_insert_random_robot (_id : Z) : M addr :=
  let g := random_initialization _id in
  a ← gauss INDIVIDUAL_MAX_AGE INDIVIDUAL_MAX_AGE_SIGMA;
  i ← lift (OnlineIndividual_new [VGenotype g; VFloat a]);
  individual ← alloc i;
  p ← _free_random_spawn_pos default_distance default_tries;
  _insert_individual individual p.

(** [for x in self._robots: body]: the iterator keeps an index into the
    list object itself and reads its current length at every step. *)
Fixpoint for_robots (fuel : nat) (body : addr -> M unit) (i : nat) : M unit :=
  fun w =>
    match _robots w !! i with
    | None => (w, Ok tt)
    | Some x =>
        match fuel with
        | O => (w, OutOfFuel)
        | S fuel' => (body x;; for_robots fuel' body (S i)) w
        end
    end.

Definition death_body (individual : addr) : M unit :=
  m ← manager_of individual;
  if dead m then _remove_individual individual else mret tt.

(** The list never grows in this loop, so its length is enough fuel. *)
Definition death_season : M unit := fun w =>
  for_robots (length (_robots w)) death_body 0 w.

Definition immigration_attempt : M unit :=
  modify (fun w => with_counter (_robot_id_counter w + 1) w);;
  try_except
    (c ← gets _robot_id_counter;
     individual ← _generate_insert_random_robot c;
     append_robot individual)
    NoPositionFound
    (mret tt).

Fixpoint immigration_season (fuel : nat) (population_minimum : Z) : M unit :=
  n ← len_robots;
  if (n <? population_minimum)%Z then
    match fuel with
    | O => out_of_fuel
    | S fuel' =>
        immigration_attempt;; immigration_season fuel' population_minimum
    end
  else mret tt.

(** Lines 317-335.  A float division by zero raises
    [ZeroDivisionError]: at line 331 the start time is already reset and
    the buffer is not cleared yet. *)
Definition adjust_mating_multiplier (time : Q) : M unit := fun w =>
  if Qltb (_recent_children_start_time w) 0 then
    (with_start_time time w, Ok tt)
  else if Qgtb (time - _recent_children_start_time w)
               (_recent_children_delta_time w) then
    let w1 := with_start_time time w in
    let n := Z.of_nat (length (_recent_children w1)) in
    if (n <? 3)%Z then
      (with_recent []
         (with_multiplier
            (_mating_multiplier w1 * _mating_increase_rate w1)%Q w1), Ok tt)
    else if (n >? 10)%Z then
      if Qeq_bool (_mating_increase_rate w1) 0 then
        (w1, Raise ZeroDivisionError)
      else
        (with_recent []
           (with_multiplier
              (_mating_multiplier w1 / _mating_increase_rate w1)%Q w1), Ok tt)
    else (with_recent [] w1, Ok tt)
  else (w, Ok tt).

(** The controller called again and again: between two calls the other
    phases may leave anything in [_recent_children]. *)
Fixpoint adjust_run (calls : list (Q * list addr)) (w : World) : list World :=
  match calls with
  | [] => []
  | (time, children) :: rest =>
      let w' := fst (adjust_mating_multiplier time (with_recent children w)) in
      w' :: adjust_run rest w'
  end.

Section Season.
Variable new_child : Genotype -> Individual + exn.

(** Lines 362-377: what follows a [mate] that returned [individual3]. *)
Definition place_offspring (individual3 : addr) : M unit :=
  modify (fun w => with_recent (_recent_children w ++ [individual3]) w);;
  modify (fun w => with_counter (_robot_id_counter w + 1) w);;
  n ← gets _robot_id_counter;
  i ← obj individual3;
  store individual3 (set_genotype (genotype_set_id n (genotype i)) i);;
  pos3 ← try_except
           (p ← _free_random_spawn_pos default_distance default_tries;
            mret (Some p))
           NoPositionFound
           (mret None);
  match pos3 with
  | None => mret tt
  | Some p =>
      append_robot individual3;;
      _insert_individual individual3 p;;
      mret tt
  end.

(** Lines 353-377: one round of the inner loop. *)
Definition mating_body (individual1 individual2 : addr) : M unit :=
  n ← len_robots;
  if (n >? MAX_POP)%Z then raise BreakIt else
  if decide (individual1 = individual2) then mret tt else
  k ← gets (fun w => length (_robots w));
  emit (EvMate individual1 individual2 k);;
  m ← gets _mating_multiplier;
  individual3 ← mate new_child individual1 individual2 m;
  match individual3 with
  | None => mret tt
  | Some c => place_offspring c
  end.

Definition mating_outer_body (fuel : nat) (individual1 : addr) : M unit :=
  mat ← mature individual1;
  if negb mat then mret tt
  else for_robots fuel (mating_body individual1) 0.

Definition mating_season (fuel : nat) : M unit :=
  try_except
    (n ← len_robots;
     if (n >? MAX_POP)%Z then raise BreakIt
     else for_robots fuel (mating_outer_body fuel) 0)
    BreakIt
    (mret tt).

End Season.

(** ** Vocabulary of the statements *)

(** The planar distance between two handles. *)
Definition planar_distance (ms mo : Manager) : Q :=
  norm (v3_flat (v3_sub (last_position ms) (last_position mo))).

(** The gates as the claim words them, for the agent with handle [ms]
    looking at the agent with handle [mo]. *)
Definition wants_gates (ms mo : Manager) (m : Q) : Prop :=
  (MATURE_AGE < m_age ms)%Q ∧
  (planar_distance ms mo <= MATE_DISTANCE * m)%Q ∧
  (last_mate ms = None ∨
   ∃ t, last_mate ms = Some t ∧ (MATING_COOLDOWN <= last_update ms - t)%Q) ∧
  (default 0%Z (mated_with ms !! name mo) <= COUPLE_MATING_LIMIT)%Z.

(** The value the method computes on two managed agents. *)
Definition wants_bool (ms mo : Manager) (m : Q) : bool :=
  Qgtb (m_age ms) MATURE_AGE
  && negb (Qgtb (planar_distance ms mo) (MATE_DISTANCE * m))
  && negb (match last_mate ms with
           | Some t => Qltb (last_update ms - t) MATING_COOLDOWN
           | None => false
           end)
  && negb (default 0%Z (mated_with ms !! name mo) >? COUPLE_MATING_LIMIT)%Z.

(** The handle of [self] after lines 161-166, from its handle [ms]
    before them and the handle [mo] of the partner. *)
Definition saved (ms mo : Manager) : Manager :=
  let m1 := set_last_mate (Some (last_update ms)) ms in
  set_mated_with
    (match mated_with m1 !! name mo with
     | Some c => <[name mo := (c + 1)%Z]> (mated_with m1)
     | None => <[name mo := 1%Z]> (mated_with m1)
     end) m1.

(** The planar distance from a handle to a point. *)
Definition planar_to (m : Manager) (p : Vector3) : Q :=
  norm (v3_flat (v3_sub (last_position m) p)).

(** Every live agent is an object attached to the simulator. *)
Definition all_managed (w : World) : Prop :=
  ∀ a, a ∈ _robots w → ∃ i m, heap w !! a = Some i ∧ manager i = Some m.

(** Attachment of the whole live list, as a test. *)
Definition all_managedb (w : World) : bool :=
  forallb
    (λ a, match heap w !! a with
          | Some i => match manager i with Some _ => true | None => false end
          | None => false
          end)
    (_robots w).

(** [p] lies within [d] of the last known position of some live agent. *)
Definition within (w : World) (p : Vector3) (d : Q) : Prop :=
  ∃ a i m, a ∈ _robots w ∧ heap w !! a = Some i ∧ manager i = Some m ∧
           (planar_to m p < d)%Q.

(** [p] is at distance [d] or more from every live agent. *)
Definition clear_of (w : World) (p : Vector3) (d : Q) : Prop :=
  ∀ a i m, a ∈ _robots w → heap w !! a = Some i → manager i = Some m →
           (d <= planar_to m p)%Q.

(** The value [_is_pos_occupied] computes over attached agents. *)
Definition occupiedb (w : World) (p : Vector3) (d : Q) : bool :=
  existsb
    (λ a, match heap w !! a with
          | Some i => match manager i with
                      | Some m => Qltb (planar_to m p) d
                      | None => false
                      end
          | None => false
          end)
    (_robots w).

(** The [j]-th candidate position drawn by a generator that has already
    given [k] samples. *)
Definition candidate (k j : nat) : Vector3 :=
  V3 (- LIMIT_X + (LIMIT_X - - LIMIT_X) * random_random (k + 2 * j))%Q
     (- LIMIT_Y + (LIMIT_Y - - LIMIT_Y) * random_random (S (k + 2 * j)))%Q
     Z_SPAWN_DISTANCE.

(** The world after lines 362-365, for the child [c]: it is in the
    buffer of recent children and carries the next id. *)
Definition offspring_registered (c : addr) (w : World) : World :=
  let n := (_robot_id_counter w + 1)%Z in
  with_heap
    (match heap w !! c with
     | Some i => <[c := set_genotype (genotype_set_id n (genotype i)) i]> (heap w)
     | None => heap w
     end)
    (with_counter n (with_recent (_recent_children w ++ [c]) w)).

(** The world after lines 374-376, for the child [c] placed at [p]: it
    is in the live list, attached to the simulator and exported. *)
Definition offspring_inserted (c : addr) (p : Vector3) (w : World) : World :=
  match heap w !! c with
  | Some i =>
      with_trace (EvExport c :: EvInsert c p :: trace w)
        (with_heap
           (<[c := set_manager
                     (Some (insert_robot (genotype i) p (max_age i))) i]>
              (heap w))
           (with_robots (_robots w ++ [c]) w))
  | None => w
  end.

(** A [mate] call is within the cap when the live list had at most
    [MAX_POP] entries. *)
Definition ev_ok (e : event) : Prop :=
  match e with
  | EvMate _ _ n => (Z.of_nat n <= MAX_POP)%Z
  | _ => True
  end.

(** What the mating phase maintains, from the world [w0] it started in:
    the events it added are within the cap, the live list is bounded, and
    once the live list is over the cap the last thing that happened is
    the insertion that took it there. *)
Definition cap_inv (w0 w : World) : Prop :=
  (∃ evs, trace w = evs ++ trace w0 ∧ Forall ev_ok evs) ∧
  (Z.of_nat (length (_robots w))
   <= Z.max (Z.of_nat (length (_robots w0))) (MAX_POP + 1))%Z ∧
  ((Z.of_nat (length (_robots w)) <= MAX_POP)%Z ∨
   w = w0 ∨
   ∃ c p t, trace w = EvExport c :: EvInsert c p :: t).

End Model.

(** * The rest of the module *)

Section Rest.
Context `{Ports}.

(** [OnlineIndividual.clone_from] (lines 73-79).  The method builds the
    clone and copies the attributes, and has no [return].  The copied
    handle is the same Python object as [other.manager]; the clone that
    holds it is referenced by nothing once the method ends. *)
Definition clone_from (other : addr) : M (option addr) :=
  o ← obj other;
  self ← lift (OnlineIndividual_new
                 [VGenotype (genotype o); VFloat (max_age o)]);
  a ← alloc self;
  o ← obj other;
  store a (set_manager (manager o) self);;
  mret None.

(** The body of the [while True] loop of [run] (lines 422-425): the
    three phases, then the controller with the simulator's time. *)
Definition run_iteration (new_child : Genotype → Individual + exn)
    (fuel : nat) (now : Q) : M unit :=
  death_season;;
  mating_season new_child fuel;;
  immigration_season fuel MIN_POP;;
  adjust_mating_multiplier now.

(** ** Vocabulary of the further statements *)

(** The simulator reports the agent dead. *)
Definition is_dead (w : World) (a : addr) : bool :=
  match heap w !! a with
  | Some i => match manager i with Some m => dead m | None => false end
  | None => false
  end.

(** What a scan that removes while it walks leaves of a list: after a
    removal the next element slides into the visited slot and is
    skipped. *)
Fixpoint sweep (d : addr → bool) (l : list addr) : list addr :=
  match l with
  | [] => []
  | x :: l' =>
      if d x then
        match l' with
        | [] => []
        | y :: l'' => y :: sweep d l''
        end
      else x :: sweep d l'
  end.

(** The elements that scan removes, in order. *)
Fixpoint swept (d : addr → bool) (l : list addr) : list addr :=
  match l with
  | [] => []
  | x :: l' =>
      if d x then
        x :: match l' with
             | [] => []
             | y :: l'' => swept d l''
             end
      else swept d l'
  end.

(** No two neighbours of the list satisfy [d]. *)
Fixpoint no_neighbours (d : addr → bool) (l : list addr) : bool :=
  match l with
  | [] => true
  | x :: l' =>
      match l' with
      | [] => true
      | y :: _ => negb (d x && d y) && no_neighbours d l'
      end
  end.

(** The events of removing the agents of [l], first to last, as they
    stand in a trace (most recent first). *)
Definition removal_events (l : list addr) : list event :=
  flat_map (λ a, [EvUnregister a; EvExport a]) (rev l).

(** The live list holds attached agents, each once. *)
Definition pop_inv (w : World) : Prop :=
  all_managed w ∧ NoDup (_robots w).

(** [pop_inv] as a test. *)
Definition pop_invb (w : World) : bool :=
  all_managedb w && bool_decide (NoDup (_robots w)).

(** Only the heap (the saved matings) and the trace differ. *)
Definition bookkeeping_only (w0 w : World) : Prop :=
  ∃ h t, w = with_trace t (with_heap h w0).

(** The multiplier and the rate of the controller are those of [w0]. *)
Definition same_gain (w0 w : World) : Prop :=
  _mating_multiplier w = _mating_multiplier w0 ∧
  _mating_increase_rate w = _mating_increase_rate w0.

(** The samples of the generator lie in [0, 1). *)
Definition unit_samples : Prop :=
  ∀ k, (0 <= random_random k)%Q ∧ (random_random k < 1)%Q.

End Rest.

(** ** [make_folders] (lines 46-64)

    The file system is outside the model: [os.path.isdir] and
    [os.path.exists] are the two tests the function is given, and the
    [os.mkdir] calls are what it returns. *)

(** [path.endswith('/')] *)
Fixpoint ends_with_slash (s : string) : bool :=
  match s with
  | EmptyString => false
  | String _ s' =>
      match s' with
      | EmptyString => String.eqb s "/"
      | _ => ends_with_slash s'
      end
  end.

(** [os.path.join(a, b)] for a [b] that is not absolute. *)
Definition path_join (a b : string) : string :=
  match a with
  | EmptyString => b
  | _ => if ends_with_slash a then a +:+ b else a +:+ "/" +:+ b
  end.

Inductive folders_outcome :=
| Made (dirpath : string) (mkdirs : list string)
| AssertionError
| SearchCut.

(** The search of lines 48-53, from [counter]. *)
Fixpoint free_counter (fuel : nat) (path_exists : string → bool)
    (base_dirpath : string) (counter : nat) : option nat :=
  if path_exists (path_join base_dirpath (pretty counter)) then
    match fuel with
    | O => None
    | S fuel' => free_counter fuel' path_exists base_dirpath (S counter)
    end
  else Some counter.

Definition make_folders (fuel : nat) (isdir path_exists : string → bool)
    (base_dirpath : string) : folders_outcome :=
  if negb (isdir base_dirpath) then AssertionError else
  match free_counter fuel path_exists base_dirpath 0 with
  | None => SearchCut
  | Some counter =>
      let dirpath := path_join base_dirpath (pretty counter) in
      Made dirpath
        [dirpath; dirpath +:+ "/genotypes"; dirpath +:+ "/phenotypes";
         dirpath +:+ "/descriptors"]
  end.

(** * Collaborators to run the model on

    Theorems hold for every [Ports]; examples need one.  Genotypes are
    lists of genes, the norm is the Euclidean one with the square root
    rounded down to three decimals, and the random generator replays a
    given sequence of samples. *)
Module Demo.

Record genome := { gid : option Z; genes : list Z }.

Definition sqrt_down (q : Q) : Q :=
  Z.sqrt (Qnum q * 1000000 / Zpos (Qden q)) # 1000.

Definition euclid (v : Vector3) : Q :=
  sqrt_down (vx v * vx v + vy v * vy v + vz v * vz v).

Definition handle (g : genome) (p : Vector3) (life : Q) : Manager :=
  {| name := "robot_" +:+ pretty (default 0%Z (gid g));
     m_age := 0; m_charge := inject_Z ROBOT_BATTERY;
     last_position := p; starting_position := p;
     last_update := 0; last_mate := None; mated_with := ∅;
     dead := false |}.

Definition ports (rnd : nat → Q) : Ports :=
  {| Genotype := genome;
     random_initialization := λ n, {| gid := Some n; genes := [n] |};
     standard_crossover := λ l, {| gid := None; genes := concat (map genes l) |};
     standard_mutation := λ g, {| gid := gid g; genes := 0%Z :: genes g |};
     genotype_set_id := λ n g, {| gid := Some n; genes := genes g |};
     norm := euclid;
     random_random := rnd;
     random_gauss := λ _ mu _, mu;
     insert_robot := handle |}.

(** Every sample is 1/2: every candidate position is the origin. *)
Definition rnd_half : nat → Q := λ _, 1 # 2.

(** Samples 0/16, 1/16, ..., 15/16, 0/16, ... *)
Definition rnd_walk : nat → Q := λ k, Z.of_nat (k mod 16) # 16.

Section Worlds.
Variable rnd : nat → Q.

(** The handle of a robot in the simulator: name, planar position, age,
    dead flag. *)
Definition handle_at (nm : string) (x y age : Q) (is_dead : bool) : Manager :=
  {| name := nm; m_age := age; m_charge := 100;
     last_position := V3 x y 0; starting_position := V3 x y 0;
     last_update := age; last_mate := None; mated_with := ∅;
     dead := is_dead |}.

Definition attached (m : Manager) : @Individual (ports rnd) :=
  @Build_Individual (ports rnd) {| gid := None; genes := [] |} (Some m)
    INDIVIDUAL_MAX_AGE.

(** An individual that was never inserted. *)
Definition detached : @Individual (ports rnd) :=
  @Build_Individual (ports rnd) {| gid := None; genes := [] |} None
    INDIVIDUAL_MAX_AGE.

Definition robot (nm : string) (x y age : Q) (is_dead : bool)
  : @Individual (ports rnd) :=
  attached (handle_at nm x y age is_dead).

(** A population whose live list holds the given robots, in order, at
    the addresses 0, 1, ... *)
Definition world_of (l : list (@Individual (ports rnd))) : @World (ports rnd) :=
  with_robots (seq 0 (length l))
    (with_heap (list_to_map (zip (seq 0 (length l)) l)) Population_init).

End Worlds.

(** The first 201 samples are 1/2, the later ones 0: after one sample
    for [gauss], a first placement sees 100 candidates at the origin. *)
Definition rnd_late : nat → Q := λ k, if (k <? 201)%nat then 1 # 2 else 0%Q.

(** Two robots reported dead, next to each other in the live list, and
    one alive. *)
Definition two_dead : @World (ports rnd_half) :=
  world_of rnd_half
    [robot rnd_half "r0" 0 0 50 true; robot rnd_half "r1" 1 1 50 true;
     robot rnd_half "r2" 2 2 50 false].

Definition handle_a : Manager := handle_at "a" 0 0 40 false.
Definition handle_b : Manager := handle_at "b" (3 # 10) (4 # 10) 41 false.

(** Two mature robots half a unit apart that never mated; every
    candidate position is the origin, where the first robot stands. *)
Definition couple_crowded : @World (ports rnd_half) :=
  world_of rnd_half [attached rnd_half handle_a; attached rnd_half handle_b].

(** The same couple, with candidate positions that move around. *)
Definition couple_roomy : @World (ports rnd_walk) :=
  world_of rnd_walk [attached rnd_walk handle_a; attached rnd_walk handle_b].

(** A mature robot and an individual without a handle. *)
Definition couple_detached : @World (ports rnd_half) :=
  world_of rnd_half [attached rnd_half handle_a; detached rnd_half].

(** One robot at the origin. *)
Definition lonely : @World (ports rnd_late) :=
  world_of rnd_late [robot rnd_late "r0" 0 0 50 false].

(** One robot where the first candidate of [rnd_walk] falls. *)
Definition corner : @World (ports rnd_walk) :=
  world_of rnd_walk [robot rnd_walk "r0" (- (4)) (- (35 # 10)) 50 false].

(** A live list one over the cap. *)
Definition crowd : @World (ports rnd_half) :=
  world_of rnd_half (replicate 101 (robot rnd_half "r" 0 0 50 false)).

(** A controller whose window started at time 0, with a rate of 2. *)
Definition window_open (children : list addr) : @World (ports rnd_half) :=
  {| heap := ∅; _robots := []; _robot_id_counter := 0;
     _mating_multiplier := 3; _mating_increase_rate := 2;
     _recent_children := children;
     _recent_children_start_time := 0;
     _recent_children_delta_time := 30;
     rng := 0; trace := [] |}.


(** Two dead robots with a living one between them. *)
Definition dead_apart : @World (ports rnd_half) :=
  world_of rnd_half
    [robot rnd_half "r0" 0 0 50 true; robot rnd_half "r1" 1 1 50 false;
     robot rnd_half "r2" 2 2 50 true].

(** Nineteen immature robots at the origin, the first reported dead. *)
Definition nursery : @World (ports rnd_walk) :=
  world_of rnd_walk
    (robot rnd_walk "d" 0 0 10 true
     :: replicate 18 (robot rnd_walk "y" 0 0 10 false)).

(** A disk where runs 0 and 1 exist under "/exp". *)
Definition two_runs (path : string) : bool :=
  String.eqb path "/exp/0" || String.eqb path "/exp/1".

End Demo.

(** * Properties *)

(** ** Facts on comparisons *)

Lemma Qltb_lt (a b : Q) : Qltb a b = true <-> (a < b)%Q.
Proof.
  unfold Qltb. rewrite Qlt_alt. destruct (a ?= b)%Q; split; congruence.
Qed.

Lemma Qltb_ge (a b : Q) : Qltb a b = false <-> (b <= a)%Q.
Proof.
  rewrite <- Bool.not_true_iff_false, Qltb_lt. split.
  - apply Qnot_lt_le.
  - apply Qle_not_lt.
Qed.

Lemma Qgtb_gt (a b : Q) : Qgtb a b = true <-> (b < a)%Q.
Proof. apply Qltb_lt. Qed.

Lemma Qgtb_le (a b : Q) : Qgtb a b = false <-> (a <= b)%Q.
Proof. apply Qltb_ge. Qed.

Lemma Qmult_one_r (a : Q) : (a * 1)%Q = a.
Proof.
  destruct a as [n d]. unfold Qmult. simpl.
  now rewrite Z.mul_1_r, Pos.mul_1_r.
Qed.

Lemma Qdiv_one_r (a : Q) : (a / 1)%Q = a.
Proof. unfold Qdiv. apply Qmult_one_r. Qed.

Section Properties.
Context `{Ports}.

(** Unfolds the monad so that a run becomes a nest of matches. *)
Ltac unmonad :=
  unfold mbind, M_bind, mret, M_ret, raise, out_of_fuel, lift, gets,
    modify, emit in *.

(** Replaces the lookups that the hypotheses decide, as far as the run
    has been reduced. *)
Ltac look :=
  repeat (simpl;
          first
            [ rewrite lookup_insert_eq
            | rewrite lookup_insert_ne by done
            | match goal with
              | E : heap ?w !! ?a = _ |- context [heap ?w !! ?a] => rewrite E
              | E : manager ?s = _ |- context [manager ?s] => rewrite E
              end ]);
  simpl.

(** ** Reading an individual does not change the world *)

Lemma wants_to_mate_pure (self other : addr) (m : Q) (w : World) :
  fst (_wants_to_mate self other m w) = w.
Proof.
  unfold _wants_to_mate, mature, age, distance_to, pos, manager_of, obj.
  unmonad. repeat (case_match; simplify_eq/=; try done).
Qed.

(** ** The four gates of [_wants_to_mate] *)

Lemma wants_bool_gates (ms mo : Manager) (m : Q) :
  wants_bool ms mo m = true ↔ wants_gates ms mo m.
Proof.
  unfold wants_bool, wants_gates.
  rewrite !andb_true_iff, !negb_true_iff, Qgtb_gt, Qgtb_le, Z.gtb_ltb,
    Z.ltb_ge.
  destruct (last_mate ms) as [t|].
  - rewrite Qltb_ge. split.
    + intros [[[? ?] ?] ?]. repeat split; eauto.
    + intros (? & ? & [?|(t' & [= <-] & ?)] & ?); [done|]. repeat split; eauto.
  - split.
    + intros [[[? ?] ?] ?]. repeat split; eauto.
    + intros (? & ? & _ & ?). repeat split; eauto.
Qed.

Lemma wants_to_mate_managed (self other : addr) (m : Q) (w : World)
    (s o : Individual) (ms mo : Manager) :
  heap w !! self = Some s → manager s = Some ms →
  heap w !! other = Some o → manager o = Some mo →
  _wants_to_mate self other m w = (w, Ok (wants_bool ms mo m)).
Proof.
  intros Hs Hms Ho Hmo.
  unfold _wants_to_mate, mature, age, distance_to, pos, manager_of, obj,
    wants_bool, planar_distance.
  unmonad. look.
  destruct (Qgtb (m_age ms) MATURE_AGE); look; [|done].
  destruct (Qgtb _ (MATE_DISTANCE * m)); look; [done|].
  destruct (match last_mate ms with Some _ => _ | None => _ end); look;
    [done|].
  by destruct (_ >? _)%Z.
Qed.

Lemma wants_to_mate_true_managed (self other : addr) (m : Q) (w : World) :
  snd (_wants_to_mate self other m w) = Ok true →
  ∃ s o ms mo,
    heap w !! self = Some s ∧ manager s = Some ms ∧
    heap w !! other = Some o ∧ manager o = Some mo.
Proof.
  intros Hw.
  destruct (heap w !! self) as [s|] eqn:Hs;
    [destruct (manager s) as [ms|] eqn:Hms|];
    [destruct (heap w !! other) as [o|] eqn:Ho;
     [destruct (manager o) as [mo|] eqn:Hmo|]|..];
    [by exists s, o, ms, mo|exfalso; revert Hw..];
    unfold _wants_to_mate, mature, age, distance_to, pos, manager_of, obj;
    unmonad; look.
  - destruct (Qgtb (m_age ms) MATURE_AGE); look; intros [=].
  - destruct (Qgtb (m_age ms) MATURE_AGE); look; intros [=].
  - unfold Qgtb, Qltb. simpl. intros [=].
  - intros [=].
Qed.

(** C6.  For every pair of agents and every multiplier, [_wants_to_mate]
    returns [True] exactly when both agents are attached to the simulator
    and the four gates hold: (a) the age of [self] exceeds [MATURE_AGE],
    (b) the planar distance is at most [MATE_DISTANCE * multiplier],
    (c) [self] has no previous mate or at least [MATING_COOLDOWN] has
    elapsed since it, (d) the count [self] keeps for the name of [other]
    is at most [COUPLE_MATING_LIMIT]; and the world after the call is the
    world before it. *)
Theorem wants_to_mate_iff_gates (self other : addr) (m : Q) (w : World) :
  (snd (_wants_to_mate self other m w) = Ok true ↔
   ∃ s o ms mo,
     heap w !! self = Some s ∧ manager s = Some ms ∧
     heap w !! other = Some o ∧ manager o = Some mo ∧
     wants_gates ms mo m)
  ∧ fst (_wants_to_mate self other m w) = w.
Proof.
  split; [|apply wants_to_mate_pure].
  split.
  - intros Hw.
    destruct (wants_to_mate_true_managed _ _ _ _ Hw)
      as (s & o & ms & mo & Hs & Hms & Ho & Hmo).
    exists s, o, ms, mo. do 4 (split; [done|]).
    rewrite (wants_to_mate_managed _ _ _ _ _ _ _ _ Hs Hms Ho Hmo) in Hw.
    simpl in Hw. apply wants_bool_gates. congruence.
  - intros (s & o & ms & mo & Hs & Hms & Ho & Hmo & Hg).
    rewrite (wants_to_mate_managed _ _ _ _ _ _ _ _ Hs Hms Ho Hmo). simpl.
    f_equal. by apply wants_bool_gates.
Qed.

(** ** [mate] *)

Lemma with_heap_id (w : World) : with_heap (heap w) w = w.
Proof. by destruct w. Qed.

Lemma wants_to_mate_run (self other : addr) (m : Q) (w : World) :
  _wants_to_mate self other m w = (w, snd (_wants_to_mate self other m w)).
Proof.
  rewrite <- (wants_to_mate_pure self other m w) at 2.
  by destruct (_wants_to_mate self other m w).
Qed.

Lemma save_mating_run (self other : addr) (w : World)
    (s o : Individual) (ms mo : Manager) :
  heap w !! self = Some s → manager s = Some ms →
  heap w !! other = Some o → manager o = Some mo →
  save_mating self other w =
    (with_heap (<[self := set_manager (Some (saved ms mo)) s]> (heap w)) w,
     Ok tt).
Proof.
  intros Hs Hms Ho Hmo.
  unfold save_mating, write_manager, store, manager_of, obj. unmonad.
  destruct (decide (self = other)) as [->|Hne].
  - assert (o = s) as -> by congruence.
    assert (mo = ms) as -> by congruence.
    look. unfold with_heap. simpl. by rewrite insert_insert_eq.
  - look. unfold with_heap. simpl. by rewrite insert_insert_eq.
Qed.

Section MateFacts.
Variable new_child : Genotype → Individual + exn.

(** When one of the two directions answers [False], [mate] returns
    [None] and writes nothing. *)
Lemma mate_refused (self other : addr) (m : Q) (w : World) :
  snd (_wants_to_mate self other m w) = Ok false ∨
  (snd (_wants_to_mate self other m w) = Ok true ∧
   snd (_wants_to_mate other self m w) = Ok false) →
  mate new_child self other m w = (w, Ok None).
Proof.
  intros Hc. unfold mate. unmonad.
  rewrite (wants_to_mate_run self other).
  destruct Hc as [->|[-> Hb]]; simpl; [done|].
  rewrite (wants_to_mate_run other self), Hb. done.
Qed.

(** When both directions answer [True], [mate] saves the mating on
    [self], then instantiates and allocates the child. *)
Lemma mate_accepted (self other : addr) (m : Q) (w : World)
    (s o : Individual) (ms mo : Manager) :
  heap w !! self = Some s → manager s = Some ms →
  heap w !! other = Some o → manager o = Some mo →
  snd (_wants_to_mate self other m w) = Ok true →
  snd (_wants_to_mate other self m w) = Ok true →
  let w1 :=
    with_heap (<[self := set_manager (Some (saved ms mo)) s]> (heap w)) w in
  mate new_child self other m w =
    match new_child
            (standard_mutation (standard_crossover [genotype s; genotype o]))
    with
    | inl child =>
        (with_heap (<[fresh (dom (heap w1)) := child]> (heap w1)) w1,
         Ok (Some (fresh (dom (heap w1)))))
    | inr e => (w1, Raise e)
    end.
Proof.
  intros Hs Hms Ho Hmo Ha Hb w1. unfold mate. unmonad.
  rewrite (wants_to_mate_run self other), Ha. simpl.
  rewrite (wants_to_mate_run other self), Hb. simpl.
  rewrite (save_mating_run _ _ _ _ _ _ _ Hs Hms Ho Hmo). fold w1.
  unfold obj, alloc.
  destruct (decide (self = other)) as [->|Hne].
  - assert (o = s) as -> by congruence.
    subst w1. look. by destruct (new_child _).
  - subst w1. look. by destruct (new_child _).
Qed.

End MateFacts.

(** C8.  When both directions of the gate pass for two distinct agents,
    [mate] writes to the initiating agent only: its [last_mate] becomes
    its handle's current time [last_update], its count for the partner's
    name goes up by one (from 0 when there was none) and its other counts
    stay; the partner's object, with its [last_mate] and its counts, is
    what it was. *)
Theorem mate_saves_on_self_only (new_child : Genotype → Individual + exn)
    (a b : addr) (m : Q) (w : World) (s o : Individual) (ms mo : Manager) :
  heap w !! a = Some s → manager s = Some ms →
  heap w !! b = Some o → manager o = Some mo →
  snd (_wants_to_mate a b m w) = Ok true →
  snd (_wants_to_mate b a m w) = Ok true →
  a ≠ b →
  let w' := fst (mate new_child a b m w) in
  (∃ ms', heap w' !! a = Some (set_manager (Some ms') s) ∧
     last_mate ms' = Some (last_update ms) ∧
     mated_with ms' !! name mo =
       Some (default 0 (mated_with ms !! name mo) + 1)%Z ∧
     (∀ k, k ≠ name mo → mated_with ms' !! k = mated_with ms !! k)) ∧
  heap w' !! b = Some o.
Proof.
  intros Hs Hms Ho Hmo Ha Hb Hne w'. subst w'.
  rewrite (mate_accepted new_child _ _ _ _ _ _ _ _ Hs Hms Ho Hmo Ha Hb).
  set (h1 := <[a := set_manager (Some (saved ms mo)) s]> (heap w)).
  assert (Hfa : fresh (dom h1) ≠ a).
  { intros E. apply (is_fresh (dom h1)). rewrite E.
    apply elem_of_dom. unfold h1. rewrite lookup_insert_eq. eauto. }
  assert (Hfb : fresh (dom h1) ≠ b).
  { intros E. apply (is_fresh (dom h1)). rewrite E.
    apply elem_of_dom. unfold h1. rewrite lookup_insert_ne by done. eauto. }
  assert (Hsaved : last_mate (saved ms mo) = Some (last_update ms) ∧
     mated_with (saved ms mo) !! name mo =
       Some (default 0 (mated_with ms !! name mo) + 1)%Z ∧
     (∀ k, k ≠ name mo →
        mated_with (saved ms mo) !! k = mated_with ms !! k)).
  { unfold saved. simpl. split; [done|].
    destruct (mated_with ms !! name mo) as [c|] eqn:E; simpl.
    - rewrite lookup_insert_eq. split; [done|].
      intros k Hk. by rewrite lookup_insert_ne.
    - rewrite lookup_insert_eq. split; [done|].
      intros k Hk. by rewrite lookup_insert_ne. }
  destruct (new_child _); simpl; fold h1.
  - rewrite !lookup_insert_ne by done. unfold h1.
    rewrite lookup_insert_eq, lookup_insert_ne by done. eauto.
  - unfold h1. rewrite lookup_insert_eq, lookup_insert_ne by done. eauto.
Qed.

(** C1.  With the class as written, [mate] never hands back a child:
    whenever both directions of the gate pass, the call ends in the
    [TypeError] of a constructor that misses its [max_age]. *)
Theorem mate_as_written_raises (a b : addr) (m : Q) (w : World) :
  snd (_wants_to_mate a b m w) = Ok true →
  snd (_wants_to_mate b a m w) = Ok true →
  snd (mate child_as_written a b m w) = Raise TypeError.
Proof.
  intros Ha Hb.
  destruct (wants_to_mate_true_managed _ _ _ _ Ha)
    as (s & o & ms & mo & Hs & Hms & Ho & Hmo).
  by rewrite (mate_accepted _ _ _ _ _ _ _ _ _ Hs Hms Ho Hmo Ha Hb).
Qed.

(** ** The mating-radius controller *)


Lemma adjust_keeps_rate (w : World) (time : Q) :
  _mating_increase_rate (fst (adjust_mating_multiplier time w))
  = _mating_increase_rate w.
Proof.
  unfold adjust_mating_multiplier.
  destruct (Qltb _ 0); [done|]. destruct (Qgtb _ _); [|done]. simpl.
  destruct (_ <? 3)%Z; [done|]. destruct (_ >? 10)%Z; [|done].
  by destruct (Qeq_bool _ 0).
Qed.

Lemma adjust_rate_one (w : World) (time : Q) :
  _mating_increase_rate w = MATING_INCREASE_RATE →
  _mating_multiplier (fst (adjust_mating_multiplier time w))
  = _mating_multiplier w.
Proof.
  intros Hrate. unfold adjust_mating_multiplier.
  destruct (Qltb _ 0); [done|]. destruct (Qgtb _ _); [|done]. simpl.
  rewrite Hrate. unfold MATING_INCREASE_RATE.
  destruct (_ <? 3)%Z; simpl; [apply Qmult_one_r|].
  destruct (_ >? 10)%Z; simpl; [apply Qdiv_one_r|done].
Qed.

Lemma adjust_run_invariant (calls : list (Q * list addr)) (w : World) (m : Q) :
  _mating_increase_rate w = MATING_INCREASE_RATE →
  _mating_multiplier w = m →
  Forall (λ w', _mating_multiplier w' = m) (adjust_run calls w).
Proof.
  revert w. induction calls as [|[time children] rest IH]; intros w Hr Hm.
  - constructor.
  - simpl. constructor.
    + by rewrite adjust_rate_one.
    + apply IH.
      * by rewrite adjust_keeps_rate.
      * by rewrite adjust_rate_one.
Qed.

(** C10.  With [MATING_INCREASE_RATE = 1.0], from the population that
    [__init__] builds, whatever the times of the calls and whatever the
    content of [_recent_children] before each of them, the multiplier is
    1.0 after every call of [adjust_mating_multiplier]. *)
Theorem mating_multiplier_stays_one (calls : list (Q * list addr)) :
  Forall (λ w, _mating_multiplier w = 1%Q) (adjust_run calls Population_init).
Proof. by apply adjust_run_invariant. Qed.

(** ** Spawn placement *)

Lemma all_managedb_sound (w : World) :
  all_managedb w = true → all_managed w.
Proof.
  unfold all_managedb, all_managed. rewrite forallb_forall.
  intros Hall a Ha. apply list_elem_of_In in Ha. specialize (Hall a Ha).
  destruct (heap w !! a) as [i|]; [|done].
  destruct (manager i) as [m|] eqn:Hm; [|done]. by exists i, m.
Qed.

Lemma distance_to_vector_run (a : addr) (p : Vector3) (w : World)
    (i : Individual) (m : Manager) :
  heap w !! a = Some i → manager i = Some m →
  distance_to a (AtVector p) true w = (w, Ok (planar_to m p)).
Proof.
  intros Hi Hm. unfold distance_to, pos, obj, planar_to. unmonad. by look.
Qed.

Lemma distance_to_pure (a : addr) (t : target) (pl : bool) (w : World) :
  fst (distance_to a t pl w) = w.
Proof.
  unfold distance_to, pos, obj. unmonad.
  destruct (heap w !! a) as [i|]; simpl; [|done].
  destruct t as [v|b]; simpl.
  - by destruct (manager i).
  - destruct (heap w !! b) as [j|]; simpl; [|done].
    by destruct (manager i), (manager j).
Qed.

Lemma is_pos_occupied_from_pure (l : list addr) (p : Vector3) (d : Q)
    (w : World) :
  fst (is_pos_occupied_from l p d w) = w.
Proof.
  induction l as [|a l IH]; simpl; [done|]. unmonad.
  pose proof (distance_to_pure a (AtVector p) true w) as Hd.
  destruct (distance_to a (AtVector p) true w) as [w' [x| |]];
    simpl in *; subst w'; try done.
  destruct (Qltb x d); [done|apply IH].
Qed.

Lemma is_pos_occupied_pure (p : Vector3) (d : Q) (w : World) :
  fst (_is_pos_occupied p d w) = w.
Proof. apply is_pos_occupied_from_pure. Qed.

Lemma is_pos_occupied_from_run (l : list addr) (p : Vector3) (d : Q)
    (w : World) :
  (∀ a, a ∈ l → ∃ i m, heap w !! a = Some i ∧ manager i = Some m) →
  is_pos_occupied_from l p d w =
    (w, Ok (existsb
              (λ a, match heap w !! a with
                    | Some i => match manager i with
                                | Some m => Qltb (planar_to m p) d
                                | None => false
                                end
                    | None => false
                    end) l)).
Proof.
  induction l as [|a l IH]; intros Hl; simpl; [done|]. unmonad.
  destruct (Hl a) as (i & m & Hi & Hm); [by left|].
  rewrite (distance_to_vector_run _ _ _ _ _ Hi Hm), Hi, Hm. simpl.
  destruct (Qltb (planar_to m p) d); simpl; [done|].
  apply IH. intros b Hb. apply Hl. by right.
Qed.

Lemma is_pos_occupied_run (p : Vector3) (d : Q) (w : World) :
  all_managed w → _is_pos_occupied p d w = (w, Ok (occupiedb w p d)).
Proof. intros Hw. by apply is_pos_occupied_from_run. Qed.

Lemma occupiedb_within (w : World) (p : Vector3) (d : Q) :
  occupiedb w p d = true ↔ within w p d.
Proof.
  unfold occupiedb, within. rewrite existsb_exists. split.
  - intros (a & Ha & Hlt). apply list_elem_of_In in Ha.
    destruct (heap w !! a) as [i|] eqn:Hi; [|done].
    destruct (manager i) as [m|] eqn:Hm; [|done].
    exists a, i, m. by rewrite <- Qltb_lt.
  - intros (a & i & m & Ha & Hi & Hm & Hlt).
    exists a. rewrite <- list_elem_of_In. split; [done|].
    rewrite Hi, Hm. by apply Qltb_lt.
Qed.

Lemma occupiedb_clear (w : World) (p : Vector3) (d : Q) :
  all_managed w → occupiedb w p d = false ↔ clear_of w p d.
Proof.
  intros Hw. rewrite <- Bool.not_true_iff_false, occupiedb_within.
  unfold within, clear_of. split.
  - intros Hno a i m Ha Hi Hm. apply Qnot_lt_le. intros Hlt.
    apply Hno. by exists a, i, m.
  - intros Hall (a & i & m & Ha & Hi & Hm & Hlt).
    by apply (Qle_not_lt _ _ (Hall a i m Ha Hi Hm)).
Qed.

Lemma random_spawn_pos_run (w : World) :
  random_spawn_pos w = (with_rng (S (S (rng w))) w, Ok (candidate (rng w) 0)).
Proof.
  unfold random_spawn_pos, random_uniform, candidate. unmonad. simpl.
  by rewrite Nat.add_0_r.
Qed.

Lemma with_rng_id (w : World) : with_rng (rng w) w = w.
Proof. by destruct w. Qed.

(** One round of the [while] loop of [_free_random_spawn_pos]. *)
Lemma spawn_loop_unfold (fuel : nat) (d : Q) (n i : Z) (p : Vector3)
    (w : World) :
  spawn_loop fuel d n i p w =
    match snd (_is_pos_occupied p d w) with
    | Ok true =>
        if (i + 1 >? n)%Z then (w, Raise NoPositionFound)
        else match fuel with
             | O => (w, OutOfFuel)
             | S fuel' =>
                 spawn_loop fuel' d n (i + 1) (candidate (rng w) 0)
                   (with_rng (S (S (rng w))) w)
             end
    | Ok false => (w, Ok p)
    | Raise e => (w, Raise e)
    | OutOfFuel => (w, OutOfFuel)
    end.
Proof.
  pose proof (is_pos_occupied_pure p d w) as Hp.
  destruct fuel; cbn [spawn_loop]; unmonad;
    destruct (_is_pos_occupied p d w) as [w' [[]| |]]; cbn [fst snd] in *;
    subst w'; try done; destruct (i + 1 >? n)%Z; try done.
  by rewrite random_spawn_pos_run.
Qed.

(** Placement reads the population and advances the generator only. *)
Lemma spawn_loop_frame (fuel : nat) (d : Q) (n i : Z) (p : Vector3)
    (w : World) :
  ∃ k, fst (spawn_loop fuel d n i p w) = with_rng k w.
Proof.
  revert i p w. induction fuel as [|fuel IH]; intros i p w;
    rewrite spawn_loop_unfold;
    destruct (snd (_is_pos_occupied p d w)) as [[]| |];
    try (exists (rng w); by rewrite with_rng_id);
    destruct (i + 1 >? n)%Z;
    try (exists (rng w); by rewrite with_rng_id).
  destruct (IH (i + 1)%Z (candidate (rng w) 0) (with_rng (S (S (rng w))) w))
    as [k Hk].
  exists k. by rewrite Hk.
Qed.

Lemma free_random_spawn_pos_frame (d : Q) (n : Z) (w : World) :
  ∃ k, fst (_free_random_spawn_pos d n w) = with_rng k w.
Proof.
  unfold _free_random_spawn_pos. unmonad. rewrite random_spawn_pos_run.
  destruct (spawn_loop_frame (Z.to_nat n) d n 1 (candidate (rng w) 0)
              (with_rng (S (S (rng w))) w)) as [k Hk].
  exists k. by rewrite Hk.
Qed.

Lemma distance_to_fuel (a : addr) (t : target) (pl : bool) (w : World) :
  snd (distance_to a t pl w) ≠ OutOfFuel.
Proof.
  unfold distance_to, pos, obj. unmonad.
  destruct (heap w !! a) as [i|]; simpl; [|done].
  destruct t as [v|b]; simpl.
  - by destruct (manager i).
  - destruct (heap w !! b) as [j|]; simpl; [|done].
    by destruct (manager i), (manager j).
Qed.

Lemma is_pos_occupied_fuel (p : Vector3) (d : Q) (w : World) :
  snd (_is_pos_occupied p d w) ≠ OutOfFuel.
Proof.
  unfold _is_pos_occupied. unmonad. simpl.
  generalize (_robots w). intros l. induction l as [|a l IHl]; simpl;
    [done|]. unmonad.
  pose proof (distance_to_pure a (AtVector p) true w) as Hd.
  pose proof (distance_to_fuel a (AtVector p) true w) as Hn.
  destruct (distance_to a (AtVector p) true w) as [w' [x| |]];
    simpl in *; subst w'; try done.
  destruct (Qltb x d); [done|apply IHl].
Qed.

(** The fuel given to the loop is never used up. *)
Lemma spawn_loop_fuel (fuel : nat) (d : Q) (n i : Z) (p : Vector3)
    (w : World) :
  (Z.to_nat (n - i) ≤ fuel)%nat →
  snd (spawn_loop fuel d n i p w) ≠ OutOfFuel.
Proof.
  revert i p w. induction fuel as [|fuel IH]; intros i p w Hf;
    rewrite spawn_loop_unfold;
    pose proof (is_pos_occupied_fuel p d w) as Hn;
    destruct (snd (_is_pos_occupied p d w)) as [[]| |]; simpl; try done.
  - destruct (Z.gtb_spec (i + 1) n); simpl; [done|lia].
  - destruct (Z.gtb_spec (i + 1) n); simpl; [done|]. apply IH. lia.
Qed.

Lemma free_random_spawn_pos_fuel (d : Q) (n : Z) (w : World) :
  snd (_free_random_spawn_pos d n w) ≠ OutOfFuel.
Proof.
  unfold _free_random_spawn_pos. unmonad. rewrite random_spawn_pos_run.
  pose proof (spawn_loop_fuel (Z.to_nat n) d n 1 (candidate (rng w) 0)
                (with_rng (S (S (rng w))) w)) as Hf.
  destruct (spawn_loop _ _ _ _ _ _) as [w' [x| |]]; simpl in *; try done.
  apply Hf. lia.
Qed.

Lemma candidate_shift (k i : nat) :
  candidate (k + 2 * i) 0 = candidate k i.
Proof.
  unfold candidate. by replace (k + 2 * i + 2 * 0)%nat with (k + 2 * i)%nat by lia.
Qed.

(** The loop entered at round [i] with the candidate of that round, when
    all [N] candidates are occupied. *)
Lemma spawn_loop_exhausts (r0 N : nat) (d : Q) (fuel i : nat) (w : World) :
  all_managed w → (1 ≤ i ≤ N)%nat → (N - i ≤ fuel)%nat →
  rng w = (r0 + 2 * i)%nat →
  (∀ j, (j < N)%nat → occupiedb w (candidate r0 j) d = true) →
  spawn_loop fuel d (Z.of_nat N) (Z.of_nat i) (candidate r0 (i - 1)) w
  = (with_rng (r0 + 2 * N) w, Raise NoPositionFound).
Proof.
  revert i w. induction fuel as [|fuel IH]; intros i w Hw Hi Hf Hr Hocc;
    rewrite spawn_loop_unfold, is_pos_occupied_run by done; cbn [snd];
    rewrite Hocc by lia.
  - destruct (Z.gtb_spec (Z.of_nat i + 1) (Z.of_nat N)); [|lia].
    replace N with i by lia. by rewrite <- Hr, with_rng_id.
  - destruct (Z.gtb_spec (Z.of_nat i + 1) (Z.of_nat N)).
    + replace N with i by lia. by rewrite <- Hr, with_rng_id.
    + rewrite Hr, candidate_shift.
      replace (Z.of_nat i + 1)%Z with (Z.of_nat (S i)) by lia.
      replace i with (S i - 1)%nat at 2 by lia.
      rewrite IH; try done; try lia.
      simpl. lia.
Qed.

(** The loop entered at round [i], when the first free candidate is the
    [k]-th. *)
Lemma spawn_loop_finds (r0 N k : nat) (d : Q) (fuel i : nat) (w : World) :
  all_managed w → (1 ≤ i)%nat → (i - 1 ≤ k < N)%nat → (N - i ≤ fuel)%nat →
  rng w = (r0 + 2 * i)%nat →
  (∀ j, (j < k)%nat → occupiedb w (candidate r0 j) d = true) →
  occupiedb w (candidate r0 k) d = false →
  spawn_loop fuel d (Z.of_nat N) (Z.of_nat i) (candidate r0 (i - 1)) w
  = (with_rng (r0 + 2 * S k) w, Ok (candidate r0 k)).
Proof.
  revert i w. induction fuel as [|fuel IH];
    intros i w Hw Hi Hk Hf Hr Hocc Hfree;
    rewrite spawn_loop_unfold, is_pos_occupied_run by done; cbn [snd].
  - replace (i - 1)%nat with k by lia. rewrite Hfree.
    replace (r0 + 2 * S k)%nat with (rng w) by lia. by rewrite with_rng_id.
  - destruct (decide (i - 1 = k)%nat) as [<-|Hne].
    + rewrite Hfree.
      replace (r0 + 2 * S (i - 1))%nat with (rng w) by lia.
      by rewrite with_rng_id.
    + rewrite Hocc by lia.
      destruct (Z.gtb_spec (Z.of_nat i + 1) (Z.of_nat N)); [lia|].
      rewrite Hr, candidate_shift.
      replace (Z.of_nat i + 1)%Z with (Z.of_nat (S i)) by lia.
      replace i with (S i - 1)%nat at 2 by lia.
      rewrite IH; try done; try lia.
      simpl. lia.
Qed.

(** C4, for a positive number of tries.  On a live list of attached
    agents and with [n_tries >= 1]: when each of the first [n_tries]
    candidates lies within [distance] of some live agent,
    [_free_random_spawn_pos] raises [NoPositionFound] after having drawn
    exactly [n_tries] candidates (two samples each); and when the [k]-th
    candidate, [k < n_tries], is the first one at [distance] or more from
    every live agent, it is returned, after [k + 1] draws. *)
Theorem free_random_spawn_pos_tries (distance : Q) (n_tries : Z) (w : World) :
  all_managed w → (1 <= n_tries)%Z →
  ((∀ j, (j < Z.to_nat n_tries)%nat →
         within w (candidate (rng w) j) distance) →
   _free_random_spawn_pos distance n_tries w
   = (with_rng (rng w + 2 * Z.to_nat n_tries) w, Raise NoPositionFound)) ∧
  (∀ k, (k < Z.to_nat n_tries)%nat →
        (∀ j, (j < k)%nat → within w (candidate (rng w) j) distance) →
        clear_of w (candidate (rng w) k) distance →
        _free_random_spawn_pos distance n_tries w
        = (with_rng (rng w + 2 * S k) w, Ok (candidate (rng w) k))).
Proof.
  intros Hw Hn.
  assert (HN : n_tries = Z.of_nat (Z.to_nat n_tries)) by lia.
  set (N := Z.to_nat n_tries) in *.
  unfold _free_random_spawn_pos. unmonad. rewrite random_spawn_pos_run.
  rewrite HN, Nat2Z.id. split.
  - intros Hocc.
    change 1%Z with (Z.of_nat 1).
    change (candidate (rng w) 0) with (candidate (rng w) (1 - 1)).
    rewrite (spawn_loop_exhausts (rng w) N); try done; try lia.
    + simpl. lia.
    + intros j Hj. by apply occupiedb_within, Hocc.
  - intros k Hk Hocc Hfree.
    change 1%Z with (Z.of_nat 1).
    change (candidate (rng w) 0) with (candidate (rng w) (1 - 1)).
    rewrite (spawn_loop_finds (rng w) N k); try done; try lia.
    + simpl. lia.
    + intros j Hj. by apply occupiedb_within, Hocc.
    + by apply occupiedb_clear.
Qed.

(** ** Immigration *)

Lemma try_except_catches {A} (body handler : M A) (E : exn) (w : World) :
  (∀ w', snd (handler w') ≠ Raise E) →
  snd (try_except body E handler w) ≠ Raise E.
Proof.
  intros Hh. unfold try_except.
  destruct (body w) as [w' [x|e|]]; simpl; try done.
  destruct (decide (e = E)); [apply Hh|simpl; congruence].
Qed.

Lemma immigration_attempt_catches (w : World) :
  snd (immigration_attempt w) ≠ Raise NoPositionFound.
Proof.
  unfold immigration_attempt. unmonad. simpl. by apply try_except_catches.
Qed.

Lemma immigration_season_unfold (fuel : nat) (min : Z) (w : World) :
  immigration_season (S fuel) min w =
    if (Z.of_nat (length (_robots w)) <? min)%Z then
      match immigration_attempt w with
      | (w', Ok _) => immigration_season fuel min w'
      | (w', Raise e) => (w', Raise e)
      | (w', OutOfFuel) => (w', OutOfFuel)
      end
    else (w, Ok tt).
Proof.
  cbn [immigration_season]. unfold len_robots. unmonad.
  by destruct (_ <? _)%Z.
Qed.

Lemma immigration_season_returns (fuel : nat) (min : Z) (w w' : World) :
  immigration_season fuel min w = (w', Ok tt) →
  (min <= Z.of_nat (length (_robots w')))%Z.
Proof.
  revert w. induction fuel as [|fuel IH]; intros w.
  - cbn [immigration_season]. unfold len_robots. unmonad.
    destruct (Z.ltb_spec (Z.of_nat (length (_robots w))) min); [done|].
    intros [= <-]. lia.
  - rewrite immigration_season_unfold.
    destruct (Z.ltb_spec (Z.of_nat (length (_robots w))) min).
    + destruct (immigration_attempt w) as [w1 [[]| |]]; [apply IH|done..].
    + intros [= <-]. lia.
Qed.

Lemma immigration_season_no_escape (fuel : nat) (min : Z) (w : World) :
  snd (immigration_season fuel min w) ≠ Raise NoPositionFound.
Proof.
  revert w. induction fuel as [|fuel IH]; intros w.
  - cbn [immigration_season]. unfold len_robots. unmonad.
    by destruct (_ <? _)%Z.
  - rewrite immigration_season_unfold.
    destruct (_ <? _)%Z; [|done].
    pose proof (immigration_attempt_catches w) as Hc.
    destruct (immigration_attempt w) as [w1 [[]| |]]; simpl in *;
      [apply IH|done..].
Qed.

(** A new random robot whose placement fails leaves the live list, the
    buffer of children and the trace as they were. *)
Lemma generate_no_position (c : Z) (w : World) :
  snd (_generate_insert_random_robot c w) = Raise NoPositionFound →
  let w' := fst (_generate_insert_random_robot c w) in
  _robots w' = _robots w ∧ trace w' = trace w.
Proof.
  unfold _generate_insert_random_robot, gauss, alloc. unmonad. simpl.
  match goal with
  | |- context [_free_random_spawn_pos ?d ?n ?w0] =>
      destruct (free_random_spawn_pos_frame d n w0) as [k Hk];
      destruct (_free_random_spawn_pos d n w0) as [w1 [p| |]]
  end; simpl in *; subst w1; try done.
  unfold _insert_individual, obj, store, export, manager_of, obj. unmonad.
  simpl. rewrite lookup_insert_eq. simpl. rewrite lookup_insert_eq. simpl.
  done.
Qed.

(** C9.  If the immigration phase returns, the live list holds at least
    [population_minimum] agents.  [NoPositionFound] never leaves the
    phase: an attempt that raises it leaves the live list as it was and
    the loop goes on with the next attempt. *)
Theorem immigration_season_minimum (fuel : nat) (population_minimum : Z)
    (w : World) :
  (∀ w', immigration_season fuel population_minimum w = (w', Ok tt) →
         (population_minimum <= Z.of_nat (length (_robots w')))%Z) ∧
  snd (immigration_season fuel population_minimum w)
    ≠ Raise NoPositionFound ∧
  ((Z.of_nat (length (_robots w)) < population_minimum)%Z →
   let c := (_robot_id_counter w + 1)%Z in
   let attempt := _generate_insert_random_robot c (with_counter c w) in
   snd attempt = Raise NoPositionFound →
   _robots (fst attempt) = _robots w ∧
   immigration_season (S fuel) population_minimum w
   = immigration_season fuel population_minimum (fst attempt)).
Proof.
  split; [|split].
  - intros w'. apply immigration_season_returns.
  - apply immigration_season_no_escape.
  - intros Hlow c attempt Hraise. split.
    + by destruct (generate_no_position c (with_counter c w) Hraise).
    + rewrite immigration_season_unfold.
      destruct (Z.ltb_spec (Z.of_nat (length (_robots w)))
                  population_minimum); [|lia].
      unfold immigration_attempt, try_except. unmonad. simpl.
      fold c. fold attempt.
      destruct attempt as [w1 [x| |]]; simpl in *; try done.
      by injection Hraise as ->.
Qed.

(** ** Loops over the live list *)

Lemma for_robots_unfold (fuel : nat) (body : addr → M unit) (i : nat)
    (w : World) :
  for_robots fuel body i w =
    match _robots w !! i with
    | None => (w, Ok tt)
    | Some x =>
        match fuel with
        | O => (w, OutOfFuel)
        | S fuel' =>
            match body x w with
            | (w', Ok _) => for_robots fuel' body (S i) w'
            | (w', Raise e) => (w', Raise e)
            | (w', OutOfFuel) => (w', OutOfFuel)
            end
        end
    end.
Proof. destruct fuel; cbn [for_robots]; by unmonad. Qed.

(** What every round keeps, the loop keeps. *)
Lemma for_robots_inv (P : World → Prop) (body : addr → M unit) :
  (∀ x w, P w → P (fst (body x w))) →
  ∀ fuel i w, P w → P (fst (for_robots fuel body i w)).
Proof.
  intros Hbody fuel. induction fuel as [|fuel IH]; intros i w Hw;
    rewrite for_robots_unfold; destruct (_robots w !! i) as [x|]; try done.
  specialize (Hbody x w Hw).
  destruct (body x w) as [w' [[]| |]]; simpl in *; [by apply IH|done..].
Qed.

(** With a bound on the live list and rounds that come back, the loop
    comes back. *)
Lemma for_robots_fuel (P : World → Prop) (body : addr → M unit)
    (bound : nat) :
  (∀ x w, P w → P (fst (body x w))) →
  (∀ x w, P w → snd (body x w) ≠ OutOfFuel) →
  (∀ w, P w → length (_robots w) ≤ bound) →
  ∀ fuel i w, P w → bound - i ≤ fuel →
              snd (for_robots fuel body i w) ≠ OutOfFuel.
Proof.
  intros Hbody Hback Hbound fuel.
  induction fuel as [|fuel IH]; intros i w Hw Hf;
    rewrite for_robots_unfold;
    destruct (_robots w !! i) as [x|] eqn:Hx; try done.
  - apply lookup_lt_Some in Hx. specialize (Hbound w Hw). lia.
  - specialize (Hbody x w Hw). specialize (Hback x w Hw).
    destruct (body x w) as [w' [[]| |]]; simpl in *; try done.
    apply IH; [done|lia].
Qed.

(** ** The death phase *)

Lemma list_remove_length (x : addr) (l l' : list addr) :
  list_remove x l = Some l' → length l = S (length l').
Proof.
  revert l'. induction l as [|y l IH]; intros l'; simpl; [done|].
  destruct (decide (y = x)); [by intros [= <-]|].
  destruct (list_remove x l) as [r|]; [|done].
  intros [= <-]. simpl. by rewrite (IH r).
Qed.

Lemma death_body_step (x : addr) (w : World) :
  length (_robots (fst (death_body x w))) ≤ length (_robots w) ∧
  snd (death_body x w) ≠ OutOfFuel.
Proof.
  unfold death_body, _remove_individual, export, manager_of, obj.
  unmonad.
  destruct (heap w !! x) as [i|]; simpl; [|done].
  destruct (manager i) as [m|] eqn:Hm; simpl; [|done].
  destruct (dead m); simpl; [|done].
  destruct (list_remove x (_robots w)) as [l'|] eqn:Hl; simpl; [|done].
  destruct (heap w !! x) as [j|]; simpl.
  - destruct (manager j); simpl; apply list_remove_length in Hl;
      split; try done; lia.
  - apply list_remove_length in Hl. split; [lia|done].
Qed.

(** The fuel of [death_season] is never used up. *)
Lemma death_season_returns (w : World) :
  snd (death_season w) ≠ OutOfFuel.
Proof.
  unfold death_season.
  apply (for_robots_fuel
           (λ w', length (_robots w') ≤ length (_robots w))
           death_body (length (_robots w))).
  - intros x w1 Hw1. destruct (death_body_step x w1). lia.
  - intros x w1 _. apply death_body_step.
  - done.
  - done.
  - lia.
Qed.

(** ** The mating phase *)

Lemma wants_to_mate_fuel (self other : addr) (m : Q) (w : World) :
  snd (_wants_to_mate self other m w) ≠ OutOfFuel.
Proof.
  unfold _wants_to_mate, mature, age, distance_to, pos, manager_of, obj.
  unmonad. repeat (case_match; simplify_eq/=; try done).
Qed.

Section SeasonFacts.
Variable new_child : Genotype → Individual + exn.

(** [mate] writes to the heap only, always comes back, and a child it
    returns is an object of the heap. *)
Lemma mate_cases (self other : addr) (m : Q) (w : World) :
  ∃ h, fst (mate new_child self other m w) = with_heap h w ∧
       snd (mate new_child self other m w) ≠ OutOfFuel ∧
       ∀ c, snd (mate new_child self other m w) = Ok (Some c) →
            is_Some (h !! c).
Proof.
  pose proof (wants_to_mate_fuel self other m w) as Hfa.
  pose proof (wants_to_mate_fuel other self m w) as Hfb.
  destruct (snd (_wants_to_mate self other m w)) as [[]|e|] eqn:Ha;
    [destruct (snd (_wants_to_mate other self m w)) as [[]|e|] eqn:Hb|..];
    try done.
  - destruct (wants_to_mate_true_managed _ _ _ _ Ha)
      as (s & o & ms & mo & Hs & Hms & Ho & Hmo).
    rewrite (mate_accepted new_child _ _ _ _ _ _ _ _ Hs Hms Ho Hmo Ha Hb).
    destruct (new_child _); simpl.
    + eexists. split; [done|]. split; [done|].
      intros c [= <-]. rewrite lookup_insert_eq. eauto.
    + eexists. split; [done|]. by split.
  - rewrite mate_refused by auto. exists (heap w).
    rewrite with_heap_id. simpl. by repeat split.
  - exists (heap w). rewrite with_heap_id. unfold mate. unmonad.
    rewrite (wants_to_mate_run self other), Ha. simpl.
    rewrite (wants_to_mate_run other self), Hb. simpl. by repeat split.
  - rewrite mate_refused by auto. exists (heap w).
    rewrite with_heap_id. simpl. by repeat split.
  - exists (heap w). rewrite with_heap_id. unfold mate. unmonad.
    rewrite (wants_to_mate_run self other), Ha. simpl. by repeat split.
Qed.

Lemma place_offspring_run (c : addr) (w : World) (i : Individual) :
  heap w !! c = Some i →
  place_offspring c w =
    match _free_random_spawn_pos default_distance default_tries
            (offspring_registered c w)
    with
    | (w1, Ok p) => (offspring_inserted c p w1, Ok tt)
    | (w1, Raise e) =>
        if decide (e = NoPositionFound) then (w1, Ok tt) else (w1, Raise e)
    | (w1, OutOfFuel) => (w1, OutOfFuel)
    end.
Proof.
  intros Hi.
  unfold place_offspring, offspring_registered, try_except, obj, store,
    append_robot. unmonad. simpl. rewrite Hi. simpl.
  match goal with
  | |- context [_free_random_spawn_pos ?d ?n ?w0] =>
      destruct (free_random_spawn_pos_frame d n w0) as [k Hk];
      destruct (_free_random_spawn_pos d n w0) as [w1 [p|e|]]
  end; simpl in *; subst w1; try done.
  - unfold _insert_individual, offspring_inserted, export, manager_of, obj,
      store. unmonad. simpl. rewrite lookup_insert_eq. simpl.
    rewrite lookup_insert_eq. simpl. done.
  - by destruct (decide (e = NoPositionFound)).
Qed.

Lemma place_offspring_missing (c : addr) (w : World) :
  heap w !! c = None →
  place_offspring c w =
    (with_counter (_robot_id_counter w + 1)
       (with_recent (_recent_children w ++ [c]) w),
     Raise AttributeError).
Proof.
  intros Hi. unfold place_offspring, obj. unmonad. simpl. by rewrite Hi.
Qed.

(** One round of the inner loop, for two different agents under the
    cap. *)
Lemma mating_body_run (a b : addr) (w : World) :
  a ≠ b → (Z.of_nat (length (_robots w)) <= MAX_POP)%Z →
  mating_body new_child a b w =
    match mate new_child a b (_mating_multiplier w)
            (with_trace (EvMate a b (length (_robots w)) :: trace w) w)
    with
    | (wm, Ok (Some c)) => place_offspring c wm
    | (wm, Ok None) => (wm, Ok tt)
    | (wm, Raise e) => (wm, Raise e)
    | (wm, OutOfFuel) => (wm, OutOfFuel)
    end.
Proof.
  intros Hne Hcap. unfold mating_body, len_robots. unmonad. simpl.
  destruct (Z.gtb_spec (Z.of_nat (length (_robots w))) MAX_POP); [lia|].
  destruct (decide (a = b)); [done|].
  by destruct (mate _ _ _ _ _) as [wm [[c|]| |]].
Qed.

(** Lines 362-377 in their order, for an object [c] of the heap: [c]
    enters [_recent_children] and the id counter is advanced before
    placement is tried.  If placement fails with [NoPositionFound] the
    lines end normally with the live list unchanged and nothing sent to
    the simulator; if it gives a position, [c] is appended to the live
    list, inserted at that position and exported. *)
Lemma place_offspring_order (c : addr) (w : World) (i : Individual) :
  heap w !! c = Some i →
  let placement :=
    _free_random_spawn_pos default_distance default_tries
      (offspring_registered c w) in
  let w' := fst (place_offspring c w) in
  _recent_children w' = _recent_children w ++ [c] ∧
  _robot_id_counter w' = (_robot_id_counter w + 1)%Z ∧
  (snd placement = Raise NoPositionFound →
   snd (place_offspring c w) = Ok tt ∧
   _robots w' = _robots w ∧ trace w' = trace w) ∧
  (∀ p, snd placement = Ok p →
        snd (place_offspring c w) = Ok tt ∧
        _robots w' = _robots w ++ [c] ∧
        trace w' = EvExport c :: EvInsert c p :: trace w).
Proof.
  intros Hi placement w'. subst w'.
  rewrite (place_offspring_run c w i Hi).
  destruct (free_random_spawn_pos_frame default_distance default_tries
              (offspring_registered c w)) as [k Hk].
  fold placement in Hk |- *.
  destruct placement as [w1 [p|e|]]; simpl in Hk; subst w1.
  - unfold offspring_inserted, offspring_registered. simpl. rewrite Hi.
    simpl. rewrite lookup_insert_eq. simpl.
    split; [done|]. split; [done|]. split; [intros [=]|].
    by intros p' [= <-].
  - destruct (decide (e = NoPositionFound)) as [->|Hother].
    + split; [done|]. split; [done|]. split; [done|]. intros p [=].
    + split; [done|]. split; [done|]. split; [|intros p [=]].
      intros [= ->]. done.
  - split; [done|]. split; [done|]. split; [intros [=]|intros p [=]].
Qed.

Lemma mature_run (a : addr) (w : World) :
  mature a w = (w, snd (mature a w)) ∧ snd (mature a w) ≠ OutOfFuel.
Proof.
  unfold mature, age, obj. unmonad. by destruct (heap w !! a).
Qed.

Lemma cap_inv_refl (w : World) : cap_inv w w.
Proof.
  split; [|split].
  - exists []. by split.
  - lia.
  - right. by left.
Qed.

Lemma place_offspring_fuel (c : addr) (w : World) :
  snd (place_offspring c w) ≠ OutOfFuel.
Proof.
  destruct (heap w !! c) as [i|] eqn:Hi.
  - rewrite (place_offspring_run c w i Hi).
    pose proof (free_random_spawn_pos_fuel default_distance default_tries
                  (offspring_registered c w)) as Hf.
    destruct (_free_random_spawn_pos _ _ _) as [w1 [p|e|]]; simpl in *;
      try done.
    by destruct (decide (e = NoPositionFound)).
  - by rewrite place_offspring_missing.
Qed.

(** After [place_offspring], the live list and the trace are as before,
    or the child was appended and its insertion is the last event. *)
Lemma place_offspring_step (c : addr) (w : World) :
  let w' := fst (place_offspring c w) in
  (_robots w' = _robots w ∧ trace w' = trace w) ∨
  (_robots w' = _robots w ++ [c] ∧
   ∃ p, trace w' = EvExport c :: EvInsert c p :: trace w).
Proof.
  destruct (heap w !! c) as [i|] eqn:Hi.
  - rewrite (place_offspring_run c w i Hi).
    destruct (free_random_spawn_pos_frame default_distance default_tries
                (offspring_registered c w)) as [k Hk].
    destruct (_free_random_spawn_pos _ _ _) as [w1 [p|e|]]; simpl in *;
      subst w1.
    + right. unfold offspring_inserted, offspring_registered. simpl.
      rewrite Hi. simpl. rewrite lookup_insert_eq. simpl. eauto.
    + left. by destruct (decide (e = NoPositionFound)).
    + by left.
  - rewrite place_offspring_missing by done. by left.
Qed.

(** One round of the inner loop: over the cap it raises [BreakIt] and
    does nothing; under the cap it adds events that are within the cap
    and appends at most one agent, whose insertion is then the last
    event. *)
Lemma mating_body_step (a b : addr) (w : World) :
  let w' := fst (mating_body new_child a b w) in
  snd (mating_body new_child a b w) ≠ OutOfFuel ∧
  ((MAX_POP < Z.of_nat (length (_robots w)))%Z → w' = w) ∧
  ((Z.of_nat (length (_robots w)) <= MAX_POP)%Z →
   (∃ evs, trace w' = evs ++ trace w ∧ Forall ev_ok evs) ∧
   (_robots w' = _robots w ∨
    (∃ c, _robots w' = _robots w ++ [c]) ∧
    ∃ c p t, trace w' = EvExport c :: EvInsert c p :: t)).
Proof.
  destruct (Z.gtb_spec (Z.of_nat (length (_robots w))) MAX_POP) as [Hover|Hcap].
  - assert (Hrun : mating_body new_child a b w = (w, Raise BreakIt)).
    { unfold mating_body, len_robots. unmonad. simpl.
      destruct (Z.gtb_spec (Z.of_nat (length (_robots w))) MAX_POP);
        [done|lia]. }
    rewrite Hrun. simpl. split; [done|]. split; [done|lia].
  - destruct (decide (a = b)) as [->|Hne].
    { assert (Hrun : mating_body new_child b b w = (w, Ok tt)).
      { unfold mating_body, len_robots. unmonad. simpl.
        destruct (Z.gtb_spec (Z.of_nat (length (_robots w))) MAX_POP);
          [lia|]. by destruct (decide (b = b)). }
      rewrite Hrun. simpl. split; [done|]. split; [done|].
      intros _. split; [|by left]. exists []. by split. }
    rewrite (mating_body_run a b w Hne Hcap).
    set (w_call := with_trace (EvMate a b (length (_robots w)) :: trace w) w).
    destruct (mate_cases a b (_mating_multiplier w) w_call)
      as (h & Hfst & Hback & _).
    destruct (mate new_child a b (_mating_multiplier w) w_call)
      as [wm [[c|]|e|]]; simpl in Hfst, Hback; subst wm; try done.
    + split; [apply place_offspring_fuel|]. split; [lia|]. intros _.
      destruct (place_offspring_step c (with_heap h w_call))
        as [[Hr Ht]|[Hr [p Ht]]]; simpl in Hr, Ht.
      * split; [|by left].
        exists [EvMate a b (length (_robots w))]. split; [done|].
        constructor; [by simpl|constructor].
      * split; [|right; split; [by exists c|by eexists _, _, _]].
        exists [EvExport c; EvInsert c p; EvMate a b (length (_robots w))].
        split; [done|].
        constructor; [by simpl|]. constructor; [by simpl|].
        constructor; [by simpl|]. constructor.
    + simpl. split; [done|]. split; [lia|]. intros _.
      split; [|by left].
      exists [EvMate a b (length (_robots w))]. split; [done|].
      constructor; [by simpl|constructor].
    + simpl. split; [done|]. split; [lia|]. intros _.
      split; [|by left].
      exists [EvMate a b (length (_robots w))]. split; [done|].
      constructor; [by simpl|constructor].
Qed.

Lemma mating_body_inv (w0 : World) (a b : addr) (w : World) :
  cap_inv w0 w → cap_inv w0 (fst (mating_body new_child a b w)).
Proof.
  intros (Hev & Hlen & Hlast).
  destruct (mating_body_step a b w) as (_ & Hover & Hunder).
  destruct (Z.le_gt_cases (Z.of_nat (length (_robots w))) MAX_POP)
    as [Hcap|Hcap].
  - destruct (Hunder Hcap) as ((evs & Ht & Hok) & Hrob).
    destruct Hev as (evs0 & Ht0 & Hok0).
    split; [|split].
    + exists (evs ++ evs0). rewrite Ht, Ht0, app_assoc. split; [done|].
      by apply Forall_app.
    + destruct Hrob as [->|[[c ->] _]]; [done|].
      rewrite length_app. simpl. lia.
    + destruct Hrob as [->|[_ Hins]]; [by left|]. right. by right.
  - rewrite (Hover Hcap). by repeat split.
Qed.

Lemma mating_outer_body_inv (w0 : World) (fuel : nat) (x : addr) (w : World) :
  cap_inv w0 w → cap_inv w0 (fst (mating_outer_body new_child fuel x w)).
Proof.
  intros Hw. unfold mating_outer_body. unmonad.
  destruct (mature_run x w) as [-> _].
  destruct (snd (mature x w)) as [[]| |]; simpl; try done.
  apply for_robots_inv; [|done]. intros b w1. apply mating_body_inv.
Qed.

Lemma cap_inv_length (w0 w : World) :
  (Z.of_nat (length (_robots w0)) <= MAX_POP)%Z →
  cap_inv w0 w → length (_robots w) ≤ S (Z.to_nat MAX_POP).
Proof. intros Hcap (_ & Hlen & _). lia. Qed.

Lemma mating_outer_body_fuel (w0 : World) (fuel : nat) (x : addr)
    (w : World) :
  (Z.of_nat (length (_robots w0)) <= MAX_POP)%Z →
  S (Z.to_nat MAX_POP) ≤ fuel →
  cap_inv w0 w →
  snd (mating_outer_body new_child fuel x w) ≠ OutOfFuel.
Proof.
  intros Hcap Hfuel Hw. unfold mating_outer_body. unmonad.
  destruct (mature_run x w) as [-> Hm].
  destruct (snd (mature x w)) as [[]| |]; simpl; try done.
  apply (for_robots_fuel (cap_inv w0) _ (S (Z.to_nat MAX_POP))).
  - intros b w1. apply mating_body_inv.
  - intros b w1 _. apply mating_body_step.
  - intros w1. by apply cap_inv_length.
  - done.
  - lia.
Qed.

Lemma mating_season_unfold (fuel : nat) (w : World) :
  mating_season new_child fuel w =
    if (Z.of_nat (length (_robots w)) >? MAX_POP)%Z then (w, Ok tt)
    else match for_robots fuel (mating_outer_body new_child fuel) 0 w with
         | (w', Raise BreakIt) => (w', Ok tt)
         | r => r
         end.
Proof.
  unfold mating_season, try_except, len_robots. unmonad. simpl.
  destruct (_ >? _)%Z; simpl; [done|].
  destruct (for_robots _ _ _ _) as [w' [[]|e|]]; try done.
  by destruct e.
Qed.

(** C7.  In the mating phase every [mate] call is made while the live
    list holds at most [MAX_POP] agents.  A phase that starts over the
    cap returns at once and changes nothing.  The live list ends no
    longer than the larger of its length at the start and [MAX_POP + 1];
    when it ends over the cap, either nothing happened or the last event
    of the phase is the insertion that crossed the cap: no pair was
    visited after it.  [BreakIt] never leaves the phase, and with fuel
    for [MAX_POP + 1] rounds per loop the phase comes back. *)
Theorem mating_season_respects_cap (fuel : nat) (w : World) :
  let w' := fst (mating_season new_child fuel w) in
  (∃ evs, trace w' = evs ++ trace w ∧ Forall ev_ok evs) ∧
  ((MAX_POP < Z.of_nat (length (_robots w)))%Z →
   mating_season new_child fuel w = (w, Ok tt)) ∧
  (Z.of_nat (length (_robots w'))
   <= Z.max (Z.of_nat (length (_robots w))) (MAX_POP + 1))%Z ∧
  ((MAX_POP < Z.of_nat (length (_robots w')))%Z →
   w' = w ∨ ∃ c p t, trace w' = EvExport c :: EvInsert c p :: t) ∧
  snd (mating_season new_child fuel w) ≠ Raise BreakIt ∧
  (S (Z.to_nat MAX_POP) ≤ fuel →
   snd (mating_season new_child fuel w) ≠ OutOfFuel).
Proof.
  rewrite mating_season_unfold.
  destruct (Z.gtb_spec (Z.of_nat (length (_robots w))) MAX_POP) as [Hover|Hcap].
  - simpl. repeat split; try done.
    + exists []. by split.
    + lia.
    + by left.
  - pose proof (for_robots_inv (cap_inv w)
                  (mating_outer_body new_child fuel)
                  (λ x w1, mating_outer_body_inv w fuel x w1)
                  fuel 0%nat w (cap_inv_refl w)) as Hinv.
    pose proof (for_robots_fuel (cap_inv w)
                  (mating_outer_body new_child fuel) (S (Z.to_nat MAX_POP))
                  (λ x w1, mating_outer_body_inv w fuel x w1)) as Hfuel.
    destruct (for_robots fuel (mating_outer_body new_child fuel) 0 w)
      as [w' r] eqn:Hrun.
    simpl in Hinv. destruct Hinv as (Hev & Hlen & Hlast).
    assert (Hr : S (Z.to_nat MAX_POP) ≤ fuel → r ≠ OutOfFuel).
    { intros Hf. change r with (snd (w', r)). rewrite <- Hrun. apply Hfuel.
      - intros x w1 Hw1. by apply (mating_outer_body_fuel w).
      - intros w1. by apply cap_inv_length.
      - apply cap_inv_refl.
      - lia. }
    assert (Hend : (MAX_POP < Z.of_nat (length (_robots w')))%Z →
                   w' = w ∨ ∃ c p t, trace w' = EvExport c :: EvInsert c p :: t).
    { intros Hend. destruct Hlast as [?|[?|?]]; [lia|by left|by right]. }
    destruct r as [[]|e|]; [|destruct e|]; simpl;
      (split; [done|]); (split; [lia|]); (split; [done|]);
      (split; [done|]); (split; [done|]); done.
Qed.

End SeasonFacts.


End Properties.

(** * The model at work *)

Section Concrete.
Import Demo.

(** C2.  Two dead agents next to each other in the live list: the death
    phase returns normally having removed, exported and unregistered the
    first only.  The second, reported dead before the phase, is still in
    the live list, with no export and no unregistration. *)
Theorem death_season_skips_neighbour :
  let w' := fst (death_season two_dead) in
  match heap two_dead !! 1%nat with
  | Some i => dead <$> manager i
  | None => None
  end = Some true ∧
  snd (death_season two_dead) = Ok tt ∧
  _robots w' = [1%nat; 2%nat] ∧
  trace w' = [EvUnregister 0; EvExport 0].
Proof. vm_compute. repeat split. Qed.

(** The gate passes in both directions for the couple. *)
Example couple_willing :
  snd (_wants_to_mate 0 1 1 couple_crowded) = Ok true ∧
  snd (_wants_to_mate 1 0 1 couple_crowded) = Ok true.
Proof. by vm_compute. Qed.

(** A mature agent asked to mate with an individual that has no handle:
    the distance cannot be taken and the call raises. *)
Example mate_detached_raises :
  snd (mate child_as_written 0 1 1 couple_detached) = Raise TypeError.
Proof. by vm_compute. Qed.

Lemma mate_as_written_raises_witness :
  (snd (_wants_to_mate 0 1 1 couple_crowded) = Ok true ∧
   snd (_wants_to_mate 1 0 1 couple_crowded) = Ok true) ∧
  snd (mate child_as_written 0 1 1 couple_crowded) = Raise TypeError.
Proof.
  split; [by vm_compute|].
  apply (mate_as_written_raises 0 1 1 couple_crowded); vm_compute;
    reflexivity.
Defined.

Lemma mate_saves_on_self_only_witness :
  heap (fst (mate child_as_written 0 1 1 couple_crowded)) !! 1%nat
  = Some (attached rnd_half handle_b).
Proof.
  refine (proj2 (mate_saves_on_self_only child_as_written 0 1 1
                   couple_crowded
                   (attached rnd_half handle_a) (attached rnd_half handle_b)
                   handle_a handle_b _ _ _ _ _ _ _));
    first [lia | vm_compute; reflexivity].
Defined.



(** The controller at work with a rate of 2: 15 children halve the
    multiplier, 5 leave it. *)
Example adjust_contracts_and_holds :
  _mating_multiplier
    (fst (adjust_mating_multiplier 31 (window_open (seq 0 15)))) = (3 / 2)%Q ∧
  _mating_multiplier
    (fst (adjust_mating_multiplier 31 (window_open (seq 0 5)))) = 3%Q.
Proof. by vm_compute. Qed.


(** C4, as the claim words it, fails for [n_tries = 0]: no draw is
    allowed, so "every one of the 0 draws is occupied" holds, yet the
    placer draws one candidate and returns it instead of raising. *)
Lemma spawn_without_tries_returns :
  let w := Population_init (H := ports rnd_half) in
  all_managed w ∧
  (∀ j, (j < Z.to_nat 0)%nat →
        within w (candidate (H := ports rnd_half) (rng w) j)
          default_distance) ∧
  _free_random_spawn_pos default_distance 0 w
  = (with_rng 2 w, Ok (candidate (H := ports rnd_half) 0 0)).
Proof.
  split; [|split].
  - by apply all_managedb_sound.
  - intros j Hj. simpl in Hj. lia.
  - vm_compute. reflexivity.
Qed.

Lemma free_random_spawn_pos_tries_witness :
  _free_random_spawn_pos default_distance 3 couple_crowded
  = (with_rng 6 couple_crowded, Raise NoPositionFound) ∧
  _free_random_spawn_pos default_distance 3 corner
  = (with_rng 4 corner, Ok (candidate (H := ports rnd_walk) 0 1)).
Proof.
  split.
  - apply (proj1 (free_random_spawn_pos_tries default_distance 3
                    couple_crowded
                    (all_managedb_sound couple_crowded eq_refl)
                    ltac:(lia))).
    intros j Hj. apply occupiedb_within.
    destruct j as [|[|[|j]]]; [vm_compute; reflexivity..|simpl in Hj; lia].
  - apply (proj2 (free_random_spawn_pos_tries default_distance 3 corner
                    (all_managedb_sound corner eq_refl) ltac:(lia))
             1%nat).
    + simpl. lia.
    + intros j Hj. apply occupiedb_within.
      destruct j as [|j]; [vm_compute; reflexivity|lia].
    + apply occupiedb_clear; [by apply all_managedb_sound|].
      vm_compute. reflexivity.
Defined.

Lemma mating_season_respects_cap_witness :
  mating_season child_as_written 101 crowd = (crowd, Ok tt) ∧
  snd (mating_season child_as_written 101 couple_roomy) ≠ OutOfFuel.
Proof.
  split.
  - apply (proj1 (proj2 (mating_season_respects_cap
                           child_as_written 101 crowd))).
    vm_compute. reflexivity.
  - apply (proj2 (proj2 (proj2 (proj2 (proj2
             (mating_season_respects_cap
                child_as_written 101 couple_roomy)))))).
    vm_compute. lia.
Defined.

(** The phase as written on the couple: the first pair that passes the
    gate ends it with the constructor's [TypeError], whether there is
    room to spawn or not. *)
Example mating_season_as_written :
  let run := mating_season child_as_written 101 couple_roomy in
  snd run = Raise TypeError ∧ _robots (fst run) = [0%nat; 1%nat] ∧
  _recent_children (fst run) = [].
Proof. vm_compute. repeat split. Qed.

Example mating_season_as_written_crowded :
  let run := mating_season child_as_written 101 couple_crowded in
  snd run = Raise TypeError ∧ _robots (fst run) = [0%nat; 1%nat] ∧
  _recent_children (fst run) = [] ∧ _robot_id_counter (fst run) = 0%Z.
Proof. vm_compute. repeat split. Qed.

Lemma immigration_season_minimum_witness :
  (2 <= Z.of_nat (length (_robots (fst (immigration_season 2 2 lonely)))))%Z ∧
  _robots (fst (_generate_insert_random_robot 1 (with_counter 1 lonely)))
  = _robots lonely.
Proof.
  split.
  - apply (proj1 (immigration_season_minimum 2 2 lonely)).
    vm_compute. reflexivity.
  - apply (proj2 (proj2 (immigration_season_minimum 1 2 lonely))).
    + vm_compute. reflexivity.
    + vm_compute. reflexivity.
Defined.

(** The same run in full: the first attempt finds no position, the
    second is inserted. *)
Example immigration_retries :
  let run := immigration_season 2 2 lonely in
  snd run = Ok tt ∧ _robots (fst run) = [0%nat; 2%nat] ∧
  _robot_id_counter (fst run) = 2%Z.
Proof. vm_compute. repeat split. Qed.

End Concrete.

(** * Further properties of the module *)

Section Further.
Context `{Ports}.

Ltac unmonad :=
  unfold mbind, M_bind, mret, M_ret, raise, out_of_fuel, lift, gets,
    modify, emit in *.

Ltac look :=
  repeat (simpl;
          first
            [ rewrite lookup_insert_eq
            | rewrite lookup_insert_ne by done
            | match goal with
              | E : heap ?w !! ?a = _ |- context [heap ?w !! ?a] => rewrite E
              | E : manager ?s = _ |- context [manager ?s] => rewrite E
              end ]);
  simpl.

(** ** Agents *)

Lemma pop_invb_sound (w : World) : pop_invb w = true → pop_inv w.
Proof.
  unfold pop_invb. intros [Hm Hn]%andb_true_iff. split.
  - by apply all_managedb_sound.
  - by apply bool_decide_eq_true in Hn.
Qed.

(** X1.  An individual without a simulator handle reads as aged 0, so it
    is never mature: asked about any partner, even one that does not
    exist, [_wants_to_mate] answers [False] without raising, and [mate]
    returns [None] and leaves the world as it was. *)
Theorem unattached_never_mates (new_child : Genotype → Individual + exn)
    (self other : addr) (m : Q) (w : World) (i : Individual) :
  heap w !! self = Some i → manager i = None →
  _wants_to_mate self other m w = (w, Ok false) ∧
  mate new_child self other m w = (w, Ok None).
Proof.
  intros Hi Hm.
  assert (Hw : _wants_to_mate self other m w = (w, Ok false)).
  { unfold _wants_to_mate, mature, age, obj. unmonad. by look. }
  split; [done|]. unfold mate. unmonad. by rewrite Hw.
Qed.

Lemma cooldown_running (q : Q) : Qltb (q - q) MATING_COOLDOWN = true.
Proof.
  apply Qltb_lt. unfold Qminus. rewrite Qplus_opp_r. reflexivity.
Qed.

Lemma wants_bool_saved (ms mo mo' : Manager) (m : Q) :
  wants_bool (saved ms mo) mo' m = false.
Proof.
  unfold wants_bool. simpl. rewrite cooldown_running. simpl.
  by rewrite andb_false_r.
Qed.

(** X2.  Right after a mating was saved, the initiator is in cooldown:
    it refuses the same partner whatever the multiplier, so a second
    [mate] on the pair returns [None] and changes nothing. *)
Theorem mate_then_cooldown (new_child : Genotype → Individual + exn)
    (a b : addr) (m m' : Q) (w : World) :
  snd (_wants_to_mate a b m w) = Ok true →
  snd (_wants_to_mate b a m w) = Ok true →
  let w' := fst (mate new_child a b m w) in
  snd (_wants_to_mate a b m' w') = Ok false ∧
  mate new_child a b m' w' = (w', Ok None).
Proof.
  intros Ha Hb w'.
  destruct (wants_to_mate_true_managed _ _ _ _ Ha)
    as (s & o & ms & mo & Hs & Hms & Ho & Hmo).
  assert (Hrefuse : snd (_wants_to_mate a b m' w') = Ok false).
  { subst w'.
    rewrite (mate_accepted new_child _ _ _ _ _ _ _ _ Hs Hms Ho Hmo Ha Hb).
    set (h1 := <[a := set_manager (Some (saved ms mo)) s]> (heap w)).
    assert (Hfa : fresh (dom h1) ≠ a).
    { intros E. apply (is_fresh (dom h1)). rewrite E.
      apply elem_of_dom. unfold h1. rewrite lookup_insert_eq. eauto. }
    assert (Hother : ∃ o' mo', h1 !! b = Some o' ∧ manager o' = Some mo').
    { unfold h1. destruct (decide (a = b)) as [<-|Hne].
      - rewrite lookup_insert_eq. eauto.
      - rewrite lookup_insert_ne by done. eauto. }
    destruct Hother as (o' & mo' & Ho' & Hmo').
    assert (Hfb : fresh (dom h1) ≠ b).
    { intros E. apply (is_fresh (dom h1)). rewrite E.
      apply elem_of_dom. eauto. }
    destruct (new_child _); simpl; fold h1.
    - erewrite wants_to_mate_managed; simpl.
      + by rewrite wants_bool_saved.
      + rewrite lookup_insert_ne by done. unfold h1.
        by rewrite lookup_insert_eq.
      + done.
      + rewrite lookup_insert_ne by done. exact Ho'.
      + exact Hmo'.
    - erewrite wants_to_mate_managed; simpl.
      + by rewrite wants_bool_saved.
      + unfold h1. by rewrite lookup_insert_eq.
      + done.
      + exact Ho'.
      + exact Hmo'. }
  split; [done|]. apply mate_refused. by left.
Qed.

(** X3.  [clone_from] has no [return]: for any existing individual it
    yields [None], never the clone; the live list is untouched and every
    object that existed is what it was. *)
Theorem clone_from_returns_none (other : addr) (w : World) (o : Individual) :
  heap w !! other = Some o →
  snd (clone_from other w) = Ok None ∧
  _robots (fst (clone_from other w)) = _robots w ∧
  ∀ a i, heap w !! a = Some i → heap (fst (clone_from other w)) !! a = Some i.
Proof.
  intros Ho. unfold clone_from, obj, alloc, store. unmonad. look.
  assert (Hf : fresh (dom (heap w)) ≠ other).
  { intros E. apply (is_fresh (dom (heap w))). rewrite E.
    apply elem_of_dom. eauto. }
  look. split; [done|]. split; [done|].
  intros a i Ha.
  assert (fresh (dom (heap w)) ≠ a).
  { intros E. apply (is_fresh (dom (heap w))). rewrite E.
    apply elem_of_dom. eauto. }
  by rewrite !lookup_insert_ne.
Qed.

(** X4.  Between two attached agents the refusal of [mate] does not
    depend on who initiates: [a.mate(b)] returns [None] exactly when
    [b.mate(a)] does. *)
Theorem mate_refusal_symmetric (new_child : Genotype → Individual + exn)
    (a b : addr) (m : Q) (w : World) (s o : Individual) (ms mo : Manager) :
  heap w !! a = Some s → manager s = Some ms →
  heap w !! b = Some o → manager o = Some mo →
  snd (mate new_child a b m w) = Ok None ↔
  snd (mate new_child b a m w) = Ok None.
Proof.
  intros Hs Hms Ho Hmo.
  pose proof (wants_to_mate_managed a b m w s o ms mo Hs Hms Ho Hmo) as Hab.
  pose proof (wants_to_mate_managed b a m w o s mo ms Ho Hmo Hs Hms) as Hba.
  destruct (wants_bool ms mo m) eqn:Eab; destruct (wants_bool mo ms m) eqn:Eba.
  - rewrite (mate_accepted new_child a b m w s o ms mo) by
      (try done; by rewrite ?Hab, ?Hba).
    rewrite (mate_accepted new_child b a m w o s mo ms) by
      (try done; by rewrite ?Hab, ?Hba).
    destruct (new_child _), (new_child _); simpl; split; intros [=].
  - rewrite !mate_refused; [done| |].
    + left. by rewrite Hba.
    + right. by rewrite Hab, Hba.
  - rewrite !mate_refused; [done| |].
    + right. by rewrite Hab, Hba.
    + left. by rewrite Hab.
  - rewrite !mate_refused; [done| |].
    + left. by rewrite Hba.
    + left. by rewrite Hab.
Qed.

(** ** Spawn placement *)

Lemma candidate_next (k j : nat) : candidate (S (S k)) j = candidate k (S j).
Proof.
  unfold candidate.
  by replace (S (S k) + 2 * j)%nat with (k + 2 * S j)%nat by lia.
Qed.

Lemma distance_to_rng (a : addr) (t : target) (pl : bool) (k : nat)
    (w : World) :
  snd (distance_to a t pl (with_rng k w)) = snd (distance_to a t pl w).
Proof.
  unfold distance_to, pos, obj. unmonad. simpl.
  destruct (heap w !! a) as [i|]; simpl; [|done].
  destruct t as [v|b]; simpl.
  - by destruct (manager i).
  - destruct (heap w !! b) as [j|]; simpl; [|done].
    by destruct (manager i), (manager j).
Qed.

Lemma is_pos_occupied_rng (p : Vector3) (d : Q) (k : nat) (w : World) :
  snd (_is_pos_occupied p d (with_rng k w)) = snd (_is_pos_occupied p d w).
Proof.
  unfold _is_pos_occupied. unmonad. simpl.
  generalize (_robots w). intros l. induction l as [|a l IH]; simpl;
    [done|]. unmonad.
  pose proof (distance_to_rng a (AtVector p) true k w) as Hs.
  pose proof (distance_to_pure a (AtVector p) true (with_rng k w)) as H1.
  pose proof (distance_to_pure a (AtVector p) true w) as H2.
  destruct (distance_to a (AtVector p) true (with_rng k w)) as [w1 r1].
  destruct (distance_to a (AtVector p) true w) as [w2 r2].
  simpl in *. subst w1 w2 r1.
  destruct r2 as [x| |]; simpl; try done.
  destruct (Qltb x d); [done|apply IH].
Qed.

(** A test that answers [False] has looked at every live agent: each has
    a handle and none is within the distance. *)
Lemma is_pos_occupied_false (p : Vector3) (d : Q) (w : World) :
  snd (_is_pos_occupied p d w) = Ok false →
  all_managed w ∧ clear_of w p d.
Proof.
  unfold _is_pos_occupied, all_managed, clear_of. unmonad. simpl.
  generalize (_robots w). intros l. induction l as [|a l IH]; simpl.
  - intros _. split; intros; exfalso; eapply not_elem_of_nil; eauto.
  - unmonad.
    pose proof (distance_to_pure a (AtVector p) true w) as Hp.
    destruct (distance_to a (AtVector p) true w) as [w1 [x| |]] eqn:Hd;
      simpl in *; subst w1; [|intros [=]..].
    destruct (Qltb x d) eqn:Hx; [intros [=]|]. intros Hrest.
    destruct (IH Hrest) as [Hall Hclear].
    assert (Ha : ∃ i mg, heap w !! a = Some i ∧ manager i = Some mg ∧
                         x = planar_to mg p).
    { revert Hd. unfold distance_to, pos, obj. unmonad.
      destruct (heap w !! a) as [i|]; simpl; [|intros [=]].
      destruct (manager i) as [mg|] eqn:Hm; simpl; [|intros [=]].
      intros [= <-]. by exists i, mg. }
    destruct Ha as (i & mg & Hi & Hm & ->).
    split.
    + intros b Hb. apply elem_of_cons in Hb as [->|Hb]; [|by apply Hall].
      by exists i, mg.
    + intros b j mj Hb Hj Hmj.
      apply elem_of_cons in Hb as [->|Hb]; [|by eapply Hclear].
      assert (j = i) as -> by congruence.
      assert (mj = mg) as -> by congruence.
      by apply Qltb_ge.
Qed.

(** What a run of the loop that returns a position has done. *)
Lemma spawn_loop_ok (d : Q) (n : Z) (fuel : nat) (i : Z) (p : Vector3)
    (w : World) (q : Vector3) :
  snd (spawn_loop fuel d n i p w) = Ok q →
  snd (_is_pos_occupied q d w) = Ok false ∧
  ((q = p ∧ fst (spawn_loop fuel d n i p w) = w) ∨
   ∃ j, q = candidate (rng w) j ∧
        fst (spawn_loop fuel d n i p w) = with_rng (rng w + 2 * S j) w ∧
        (Z.of_nat j + i < n)%Z).
Proof.
  revert i p w. induction fuel as [|fuel IH]; intros i p w;
    rewrite spawn_loop_unfold;
    destruct (snd (_is_pos_occupied p d w)) as [[]| |] eqn:Ho; simpl;
    try (intros [=]; fail).
  - destruct (i + 1 >? n)%Z; simpl; intros [=].
  - intros [= <-]. split; [done|]. by left.
  - destruct (Z.gtb_spec (i + 1) n) as [|Hle]; simpl; [intros [=]|].
    intros Hq. destruct (IH _ _ _ Hq) as [Hfree Hcase].
    rewrite is_pos_occupied_rng in Hfree. split; [done|]. right.
    destruct Hcase as [[-> Hw]|(j & -> & Hw & Hj)].
    + exists 0%nat. rewrite Hw. split; [done|]. split; [|lia].
      f_equal. lia.
    + exists (S j). simpl rng in *. rewrite candidate_next.
      split; [done|]. rewrite Hw. split; [|lia].
      change (with_rng ?k (with_rng _ w)) with (with_rng k w).
      f_equal. lia.
  - intros [= <-]. split; [done|]. by left.
Qed.

Lemma free_random_spawn_pos_unfold (d : Q) (n : Z) (w : World) :
  _free_random_spawn_pos d n w =
    spawn_loop (Z.to_nat n) d n 1 (candidate (rng w) 0)
      (with_rng (S (S (rng w))) w).
Proof.
  unfold _free_random_spawn_pos. unmonad. by rewrite random_spawn_pos_run.
Qed.

Lemma free_random_spawn_pos_ok (d : Q) (n : Z) (w : World) (q : Vector3) :
  snd (_free_random_spawn_pos d n w) = Ok q →
  all_managed w ∧ clear_of w q d ∧
  ∃ j, q = candidate (rng w) j ∧
       fst (_free_random_spawn_pos d n w) = with_rng (rng w + 2 * S j) w ∧
       (Z.of_nat j < Z.max 1 n)%Z.
Proof.
  rewrite free_random_spawn_pos_unfold.
  set (w1 := with_rng (S (S (rng w))) w).
  intros Hq.
  destruct (spawn_loop_ok d n _ _ _ _ _ Hq) as [Hfree Hcase].
  unfold w1 in Hfree. rewrite is_pos_occupied_rng in Hfree.
  destruct (is_pos_occupied_false _ _ _ Hfree) as [Hall Hclear].
  split; [done|]. split; [done|].
  destruct Hcase as [[-> Hw]|(j & -> & Hw & Hj)].
  - exists 0%nat. rewrite Hw. split; [done|]. split; [|lia].
    unfold w1. f_equal. lia.
  - exists (S j). unfold w1 in *. simpl rng in *. rewrite candidate_next.
    split; [done|]. rewrite Hw. split; [|lia].
    change (with_rng ?k (with_rng _ w)) with (with_rng k w).
    f_equal. lia.
Qed.

(** X5.  A position handed out by [_free_random_spawn_pos] is sound:
    every live agent has a handle and stands at [distance] or more from
    it, it is one of the first [max(1, n_tries)] candidates, and nothing
    but the generator has changed. *)
Theorem free_random_spawn_pos_sound (distance : Q) (n_tries : Z) (w : World)
    (q : Vector3) :
  snd (_free_random_spawn_pos distance n_tries w) = Ok q →
  all_managed w ∧ clear_of w q distance ∧
  ∃ j, (Z.of_nat j < Z.max 1 n_tries)%Z ∧ q = candidate (rng w) j ∧
       fst (_free_random_spawn_pos distance n_tries w)
       = with_rng (rng w + 2 * S j) w.
Proof.
  intros Hq.
  destruct (free_random_spawn_pos_ok _ _ _ _ Hq)
    as (Hall & Hclear & j & -> & Hw & Hj).
  split; [done|]. split; [done|]. by exists j.
Qed.

Lemma candidate_in_arena (k j : nat) :
  unit_samples →
  (- LIMIT_X <= vx (candidate k j))%Q ∧ (vx (candidate k j) < LIMIT_X)%Q ∧
  (- LIMIT_Y <= vy (candidate k j))%Q ∧ (vy (candidate k j) < LIMIT_Y)%Q ∧
  vz (candidate k j) = Z_SPAWN_DISTANCE.
Proof.
  intros Hu. unfold candidate, LIMIT_X, LIMIT_Y. cbn [vx vy vz].
  destruct (Hu (k + 2 * j)%nat) as [Hx0 Hx1].
  destruct (Hu (S (k + 2 * j))) as [Hy0 Hy1].
  repeat split; try lra.
Qed.

(** X6.  With generator samples in [0, 1), every position the placer
    returns lies in the arena [-LIMIT_X, LIMIT_X) x [-LIMIT_Y, LIMIT_Y)
    at the spawn height. *)
Theorem free_random_spawn_pos_in_arena (distance : Q) (n_tries : Z)
    (w : World) (q : Vector3) :
  unit_samples →
  snd (_free_random_spawn_pos distance n_tries w) = Ok q →
  (- LIMIT_X <= vx q)%Q ∧ (vx q < LIMIT_X)%Q ∧
  (- LIMIT_Y <= vy q)%Q ∧ (vy q < LIMIT_Y)%Q ∧
  vz q = Z_SPAWN_DISTANCE.
Proof.
  intros Hu Hq.
  destruct (free_random_spawn_pos_ok _ _ _ _ Hq)
    as (_ & _ & j & -> & _ & _).
  by apply candidate_in_arena.
Qed.

Lemma spawn_loop_draws (d : Q) (n : Z) (fuel : nat) (i : Z) (p : Vector3)
    (w : World) :
  ∃ k, fst (spawn_loop fuel d n i p w) = with_rng (rng w + 2 * k) w ∧
       (Z.of_nat k + i <= Z.max i n)%Z.
Proof.
  assert (Hstay : ∃ k, w = with_rng (rng w + 2 * k) w ∧
                       (Z.of_nat k + i <= Z.max i n)%Z).
  { exists 0%nat. split; [|lia].
    replace (rng w + 2 * 0)%nat with (rng w) by lia. by rewrite with_rng_id. }
  revert i p w Hstay. induction fuel as [|fuel IH]; intros i p w Hstay;
    rewrite spawn_loop_unfold;
    destruct (snd (_is_pos_occupied p d w)) as [[]| |]; try done;
    destruct (Z.gtb_spec (i + 1) n) as [|Hle]; try done.
  destruct (IH (i + 1)%Z (candidate (rng w) 0) (with_rng (S (S (rng w))) w))
    as (k & Hk & Hb).
  { exists 0%nat. split; [|lia]. simpl rng.
    replace (S (S (rng w)) + 2 * 0)%nat with (S (S (rng w))) by lia. done. }
  exists (S k). rewrite Hk. split; [|lia].
  change (with_rng ?a (with_rng _ w)) with (with_rng a w).
  f_equal. simpl. lia.
Qed.

(** X7.  Whatever its outcome (a position, [NoPositionFound], or the
    error of a live agent without handle), the placer comes back, has
    drawn at least one and at most [max(1, n_tries)] candidates, and has
    changed nothing but the generator. *)
Theorem free_random_spawn_pos_draws (distance : Q) (n_tries : Z) (w : World) :
  snd (_free_random_spawn_pos distance n_tries w) ≠ OutOfFuel ∧
  ∃ k, (1 ≤ k)%nat ∧ (Z.of_nat k <= Z.max 1 n_tries)%Z ∧
       fst (_free_random_spawn_pos distance n_tries w)
       = with_rng (rng w + 2 * k) w.
Proof.
  split; [apply free_random_spawn_pos_fuel|].
  rewrite free_random_spawn_pos_unfold.
  destruct (spawn_loop_draws distance n_tries (Z.to_nat n_tries) 1
              (candidate (rng w) 0) (with_rng (S (S (rng w))) w))
    as (k & Hk & Hb).
  exists (S k). split; [lia|]. split; [lia|]. rewrite Hk.
  change (with_rng ?a (with_rng _ w)) with (with_rng a w).
  f_equal. simpl. lia.
Qed.

(** X8.  With nobody alive the first candidate is taken, whatever
    [n_tries] is, zero and negative included: placement cannot fail on
    an empty arena. *)
Theorem free_random_spawn_pos_empty (distance : Q) (n_tries : Z) (w : World) :
  _robots w = [] →
  _free_random_spawn_pos distance n_tries w
  = (with_rng (S (S (rng w))) w, Ok (candidate (rng w) 0)).
Proof.
  intros Hempty. rewrite free_random_spawn_pos_unfold, spawn_loop_unfold.
  unfold _is_pos_occupied. unmonad. simpl. by rewrite Hempty.
Qed.

(** ** Removal and the death phase *)

Lemma list_remove_absent (x : addr) (l : list addr) :
  x ∉ l → list_remove x l = None.
Proof.
  induction l as [|y l IH]; simpl; [done|]. intros Hx.
  apply not_elem_of_cons in Hx as [Hne Hx].
  destruct (decide (y = x)); [congruence|]. by rewrite IH.
Qed.

Lemma list_remove_middle (x : addr) (l1 l2 : list addr) :
  x ∉ l1 → list_remove x (l1 ++ x :: l2) = Some (l1 ++ l2).
Proof.
  induction l1 as [|y l1 IH]; simpl; intros Hx.
  - by destruct (decide (x = x)).
  - apply not_elem_of_cons in Hx as [Hne Hx].
    destruct (decide (y = x)); [congruence|]. by rewrite IH.
Qed.

Lemma remove_individual_present_aux (individual : addr) (w : World)
    (l1 l2 : list addr) (i : Individual) (m : Manager) :
  _robots w = l1 ++ individual :: l2 → individual ∉ l1 →
  heap w !! individual = Some i → manager i = Some m →
  _remove_individual individual w =
    (with_trace (EvUnregister individual :: EvExport individual :: trace w)
       (with_robots (l1 ++ l2) w), Ok tt).
Proof.
  intros Hl Hx Hi Hm. unfold _remove_individual, export, manager_of, obj.
  unmonad. simpl. rewrite Hl, list_remove_middle by done. simpl.
  rewrite Hi. simpl. by rewrite Hm.
Qed.

(** X9.  [_remove_individual] on an individual that is not in the live
    list raises [ValueError] and changes nothing: nothing is exported
    and nothing unregistered. *)
Theorem remove_individual_absent (individual : addr) (w : World) :
  individual ∉ _robots w →
  _remove_individual individual w = (w, Raise ValueError).
Proof.
  intros Hx. unfold _remove_individual. unmonad. simpl.
  by rewrite list_remove_absent.
Qed.

(** X10.  [_remove_individual] on a live individual drops its first
    occurrence from the live list and keeps the order of the others.
    With a handle, the individual is then exported and unregistered, in
    that order; without one, the export raises [AttributeError] when the
    individual has already left the list, and nothing is unregistered. *)
Theorem remove_individual_present (individual : addr) (w : World)
    (l1 l2 : list addr) (i : Individual) :
  _robots w = l1 ++ individual :: l2 → individual ∉ l1 →
  heap w !! individual = Some i →
  _remove_individual individual w =
    match manager i with
    | Some _ =>
        (with_trace (EvUnregister individual :: EvExport individual :: trace w)
           (with_robots (l1 ++ l2) w), Ok tt)
    | None => (with_robots (l1 ++ l2) w, Raise AttributeError)
    end.
Proof.
  intros Hl Hx Hi. unfold _remove_individual, export, manager_of, obj.
  unmonad. simpl. rewrite Hl, list_remove_middle by done. simpl.
  rewrite Hi. simpl. by destruct (manager i).
Qed.

Lemma list_ind_pairs {A} (P : list A → Prop) :
  P [] → (∀ x, P [x]) →
  (∀ x y l, P l → P (y :: l) → P (x :: y :: l)) →
  ∀ l, P l.
Proof.
  intros Hnil Hone Hstep l.
  assert (Hboth : P l ∧ ∀ x, P (x :: l)).
  { induction l as [|y l [IH1 IH2]]; split; auto. }
  apply Hboth.
Qed.

Lemma removal_events_cons (x : addr) (l : list addr) :
  removal_events (x :: l)
  = removal_events l ++ [EvUnregister x; EvExport x].
Proof.
  unfold removal_events. simpl. by rewrite flat_map_app.
Qed.

Lemma death_body_run (x : addr) (w : World) (l1 l2 : list addr)
    (i : Individual) (m : Manager) :
  _robots w = l1 ++ x :: l2 → x ∉ l1 →
  heap w !! x = Some i → manager i = Some m →
  death_body x w =
    if dead m then
      (with_trace (EvUnregister x :: EvExport x :: trace w)
         (with_robots (l1 ++ l2) w), Ok tt)
    else (w, Ok tt).
Proof.
  intros Hl Hx Hi Hm. unfold death_body, manager_of, obj. unmonad.
  rewrite Hi. simpl. rewrite Hm. simpl.
  destruct (dead m); [|done].
  rewrite (remove_individual_present_aux x w l1 l2 i m) by done. done.
Qed.

Lemma world_same (w : World) (l : list addr) (t : list event) :
  _robots w = l → trace w = t → with_trace t (with_robots l w) = w.
Proof. destruct w. simpl. by intros -> ->. Qed.

(** The scan of [death_season] from a position of the live list: [kept]
    is what lies before the iterator, [rest] what lies from it on. *)
Lemma death_loop_sweep (w0 : World) (fuel : nat) :
  ∀ (kept rest : list addr) (w : World),
    heap w = heap w0 → _robots w = kept ++ rest → NoDup (kept ++ rest) →
    (∀ a, a ∈ rest → ∃ i m, heap w0 !! a = Some i ∧ manager i = Some m) →
    length rest ≤ fuel →
    for_robots fuel death_body (length kept) w =
      (with_trace (removal_events (swept (is_dead w0) rest) ++ trace w)
         (with_robots (kept ++ sweep (is_dead w0) rest) w), Ok tt).
Proof.
  induction fuel as [|fuel IH]; intros kept rest w Hh Hl Hnd Hm Hf;
    rewrite for_robots_unfold, Hl.
  - destruct rest; [|simpl in Hf; lia].
    rewrite lookup_ge_None_2 by (rewrite length_app; simpl; lia).
    simpl. by rewrite world_same.
  - destruct rest as [|x rest].
    { rewrite lookup_ge_None_2 by (rewrite length_app; simpl; lia).
      simpl. by rewrite world_same. }
    rewrite list_lookup_middle by done.
    destruct (Hm x) as (i & m & Hi & Hmi); [by left|].
    assert (Hx : x ∉ kept).
    { apply NoDup_app in Hnd as (_ & Hdis & _). intros Hin.
      apply (Hdis x Hin). by left. }
    rewrite (death_body_run x w kept rest i m) by (try done; congruence).
    assert (Hd : is_dead w0 x = dead m).
    { unfold is_dead. by rewrite Hi, Hmi. }
    simpl sweep. simpl swept. rewrite Hd.
    destruct (dead m).
    + destruct rest as [|y rest].
      * rewrite for_robots_unfold. simpl _robots.
        rewrite lookup_ge_None_2 by (rewrite length_app; simpl; lia).
        rewrite removal_events_cons. simpl. by rewrite !app_nil_r.
      * replace (kept ++ y :: rest) with ((kept ++ [y]) ++ rest)
          by (by rewrite <- app_assoc).
        replace (S (length kept)) with (length (kept ++ [y]))
          by (rewrite length_app; simpl; lia).
        rewrite (IH (kept ++ [y]) rest).
        -- rewrite removal_events_cons. simpl.
           rewrite <- !app_assoc. simpl. done.
        -- done.
        -- done.
        -- rewrite <- app_assoc. simpl.
           apply NoDup_app in Hnd as (Hk & Hdis & Hr).
           apply NoDup_app. split; [done|]. split.
           ++ intros a Ha Hin. apply (Hdis a Ha). by right.
           ++ by apply NoDup_cons in Hr as [_ Hr].
        -- intros a Ha. apply Hm. right. by right.
        -- simpl in Hf. lia.
    + replace (kept ++ x :: rest) with ((kept ++ [x]) ++ rest) in *
        by (by rewrite <- app_assoc).
      replace (S (length kept)) with (length (kept ++ [x]))
        by (rewrite length_app; simpl; lia).
      rewrite (IH (kept ++ [x]) rest).
      * rewrite <- !app_assoc. simpl. done.
      * done.
      * done.
      * done.
      * intros a Ha. apply Hm. by right.
      * simpl in Hf. lia.
Qed.

Lemma death_season_run (w : World) :
  pop_inv w →
  death_season w =
    (with_trace
       (removal_events (swept (is_dead w) (_robots w)) ++ trace w)
       (with_robots (sweep (is_dead w) (_robots w)) w), Ok tt).
Proof.
  intros [Hall Hnd]. unfold death_season.
  by apply (death_loop_sweep w (length (_robots w)) [] (_robots w) w).
Qed.

(** X11.  On a live list of attached agents, each listed once, the death
    phase returns normally and is the scan [sweep]: it walks the list,
    removes a dead agent it visits and then skips the agent that follows
    it.  The removed agents are exported and then unregistered, each in
    turn; the heap and everything else stay as they were. *)
Theorem death_season_sweeps (w : World) :
  pop_inv w →
  death_season w =
    (with_trace
       (removal_events (swept (is_dead w) (_robots w)) ++ trace w)
       (with_robots (sweep (is_dead w) (_robots w)) w), Ok tt).
Proof. apply death_season_run. Qed.

Lemma sweep_sublist (d : addr → bool) (l : list addr) :
  sublist (sweep d l) l.
Proof.
  induction l as [| x | x y l IH1 IH2] using list_ind_pairs; simpl.
  - constructor.
  - destruct (d x); [by apply sublist_nil_l|done].
  - destruct (d x).
    + by apply sublist_cons, sublist_skip.
    + by apply sublist_skip.
Qed.

Lemma sweep_keeps_alive (d : addr → bool) (l : list addr) (a : addr) :
  a ∈ l → d a = false → a ∈ sweep d l.
Proof.
  intros Ha Hd. revert Ha.
  induction l as [| x | x y l IH1 IH2] using list_ind_pairs; simpl.
  - done.
  - intros ->%list_elem_of_singleton. by rewrite Hd; left.
  - intros Hin. destruct (d x) eqn:Hx.
    + apply elem_of_cons in Hin as [->|Hin]; [congruence|].
      apply elem_of_cons in Hin as [->|Hin]; [by left|].
      right. by apply IH1.
    + apply elem_of_cons in Hin as [->|Hin]; [by left|].
      right. by apply IH2.
Qed.

Lemma sweep_shorter (d : addr → bool) (l : list addr) (a : addr) :
  a ∈ l → d a = true → length (sweep d l) < length l.
Proof.
  assert (Hle : ∀ l', length (sweep d l') ≤ length l').
  { intros l'. apply sublist_length, sweep_sublist. }
  induction l as [|x l IH]; [by intros ?%not_elem_of_nil|].
  intros Hin Hd. simpl. destruct (d x) eqn:Hx.
  - destruct l as [|y l]; simpl; [lia|]. specialize (Hle l). lia.
  - apply elem_of_cons in Hin as [->|Hin]; [congruence|].
    simpl. specialize (IH Hin Hd). lia.
Qed.

Lemma sweep_filter (d : addr → bool) (l : list addr) :
  no_neighbours d l = true →
  sweep d l = List.filter (λ a, negb (d a)) l.
Proof.
  induction l as [| x | x y l IH1 IH2] using list_ind_pairs.
  - done.
  - intros _. simpl. by destruct (d x).
  - intros Hn. cbn [no_neighbours] in Hn.
    apply andb_true_iff in Hn as [Hxy Hrest].
    specialize (IH2 Hrest). cbn [sweep List.filter] in *.
    destruct (d x) eqn:Hx; cbn [negb].
    + destruct (d y) eqn:Hy; [done|]. exact IH2.
    + by rewrite IH2.
Qed.

(** X12.  When no two dead agents are neighbours in the live list, the
    death phase removes exactly the dead: what stays is the live list
    filtered on the agents not reported dead, in the same order. *)
Theorem death_season_removes_the_dead (w : World) :
  pop_inv w →
  no_neighbours (is_dead w) (_robots w) = true →
  snd (death_season w) = Ok tt ∧
  _robots (fst (death_season w))
  = List.filter (λ a, negb (is_dead w a)) (_robots w).
Proof.
  intros Hinv Hn. rewrite death_season_run by done. simpl.
  split; [done|]. by apply sweep_filter.
Qed.

(** X13.  In general the death phase never removes an agent that is not
    reported dead and never reorders: the live list it leaves is a
    sublist of the one it found, with every agent alive at the start
    still in it, attached and listed once.  A dead agent can be skipped,
    but never all of them: with a dead agent in the list the phase makes
    the list strictly shorter. *)
Theorem death_season_spares_the_living (w : World) :
  pop_inv w →
  let w' := fst (death_season w) in
  pop_inv w' ∧
  sublist (_robots w') (_robots w) ∧
  (∀ a, a ∈ _robots w → is_dead w a = false → a ∈ _robots w') ∧
  (∀ a, a ∈ _robots w → is_dead w a = true →
        length (_robots w') < length (_robots w)).
Proof.
  intros Hinv w'. subst w'. rewrite death_season_run by done. simpl.
  destruct Hinv as [Hall Hnd].
  pose proof (sweep_sublist (is_dead w) (_robots w)) as Hsub.
  split; [split|split; [done|split]].
  - intros a Ha. apply Hall. by eapply elem_of_sublist.
  - by eapply sublist_NoDup.
  - intros a. apply sweep_keeps_alive.
  - intros a. apply sweep_shorter.
Qed.

(** ** Immigration *)

(** What [_generate_insert_random_robot] does to the world: the new
    individual is allocated at a fresh address; with a position it is
    attached, inserted and exported, otherwise it stays behind
    unattached. *)
Lemma generate_insert_effect (c : Z) (w : World) :
  let a := fresh (dom (heap w)) in
  (∃ p k i, _generate_insert_random_robot c w =
              (with_trace (EvExport a :: EvInsert a p :: trace w)
                 (with_heap (<[a := i]> (heap w)) (with_rng k w)), Ok a) ∧
            is_Some (manager i)) ∨
  (∃ k i e, _generate_insert_random_robot c w =
              (with_heap (<[a := i]> (heap w)) (with_rng k w), Raise e)).
Proof.
  unfold _generate_insert_random_robot, gauss, alloc. unmonad. simpl.
  match goal with
  | |- context [_free_random_spawn_pos ?d ?n ?w0] =>
      destruct (free_random_spawn_pos_frame d n w0) as [k Hk];
      pose proof (free_random_spawn_pos_fuel d n w0) as Hf;
      destruct (_free_random_spawn_pos d n w0) as [w1 [p|e|]]
  end; simpl in *; subst w1; try done.
  - left. unfold _insert_individual, obj, store, export, manager_of, obj.
    unmonad. simpl. rewrite lookup_insert_eq. simpl.
    rewrite lookup_insert_eq. simpl.
    eexists p, k, _. split.
    + unfold with_trace, with_heap, with_rng. simpl.
      by rewrite insert_insert_eq.
    + simpl. eauto.
  - right. by eexists k, _, e.
Qed.

Lemma immigration_attempt_effect (w : World) :
  let a := fresh (dom (heap w)) in
  let w' := fst (immigration_attempt w) in
  (∃ i, heap w' = <[a := i]> (heap w) ∧
        ((_robots w' = _robots w ++ [a] ∧ is_Some (manager i) ∧
          snd (immigration_attempt w) = Ok tt) ∨
         (_robots w' = _robots w ∧ snd (immigration_attempt w) ≠ OutOfFuel))).
Proof.
  unfold immigration_attempt, try_except, append_robot. unmonad. simpl.
  destruct (generate_insert_effect (_robot_id_counter w + 1)
              (with_counter (_robot_id_counter w + 1) w))
    as [(p & k & i & Hrun & Hm)|(k & i & e & Hrun)]; rewrite Hrun; simpl.
  - exists i. split; [done|]. by left.
  - exists i. destruct (decide (e = NoPositionFound)); simpl;
      (split; [done|]); by right.
Qed.

Lemma immigration_attempt_inv (w : World) :
  pop_inv w →
  pop_inv (fst (immigration_attempt w)) ∧
  _robots w `prefix_of` _robots (fst (immigration_attempt w)).
Proof.
  intros [Hall Hnd].
  assert (Hfresh : ∀ b, b ∈ _robots w → b ≠ fresh (dom (heap w))).
  { intros b Hb ->. destruct (Hall _ Hb) as (i & m & Hi & _).
    apply (is_fresh (dom (heap w))), elem_of_dom. eauto. }
  destruct (immigration_attempt_effect w)
    as (i & Hh & [(Hr & [m Hm] & _)|[Hr _]]);
    unfold pop_inv, all_managed; rewrite Hr.
  - split; [split|by apply prefix_app_r].
    + intros b Hb. rewrite Hh.
      apply elem_of_app in Hb as [Hb| ->%list_elem_of_singleton].
      * rewrite lookup_insert_ne by (symmetry; by apply Hfresh).
        by apply Hall.
      * rewrite lookup_insert_eq. eauto.
    + apply NoDup_app. split; [done|]. split; [|apply NoDup_singleton].
      intros b Hb ->%list_elem_of_singleton. by apply (Hfresh _ Hb).
  - split; [split|done]; [|done].
    intros b Hb. rewrite Hh.
    rewrite lookup_insert_ne by (symmetry; by apply Hfresh).
    by apply Hall.
Qed.

Lemma immigration_season_inv (fuel : nat) (min : Z) (w : World) :
  pop_inv w →
  pop_inv (fst (immigration_season fuel min w)) ∧
  _robots w `prefix_of` _robots (fst (immigration_season fuel min w)).
Proof.
  revert w. induction fuel as [|fuel IH]; intros w Hinv.
  - cbn [immigration_season]. unfold len_robots. unmonad.
    by destruct (_ <? _)%Z.
  - rewrite immigration_season_unfold.
    destruct (_ <? _)%Z; [|done].
    destruct (immigration_attempt_inv w Hinv) as [Hinv1 Hpre].
    destruct (immigration_attempt w) as [w1 [[]| |]]; simpl in *; try done.
    destruct (IH w1 Hinv1) as [Hinv2 Hpre2].
    split; [done|]. by etrans.
Qed.

Lemma immigration_season_length (fuel : nat) (min : Z) (w : World) :
  (Z.of_nat (length (_robots (fst (immigration_season fuel min w))))
   <= Z.max (Z.of_nat (length (_robots w))) min)%Z ∧
  (snd (immigration_season fuel min w) = Ok tt →
   Z.of_nat (length (_robots (fst (immigration_season fuel min w))))
   = Z.max (Z.of_nat (length (_robots w))) min).
Proof.
  revert w. induction fuel as [|fuel IH]; intros w.
  - cbn [immigration_season]. unfold len_robots. unmonad.
    destruct (Z.ltb_spec (Z.of_nat (length (_robots w))) min); simpl;
      split; try done; lia.
  - rewrite immigration_season_unfold.
    destruct (Z.ltb_spec (Z.of_nat (length (_robots w))) min) as [Hlow|];
      [|simpl; split; lia].
    destruct (immigration_attempt_effect w)
      as (i & _ & [(Hr & _ & _)|[Hr _]]);
      destruct (immigration_attempt w) as [w1 [[]| |]]; simpl in *;
      try (split; [rewrite Hr, ?length_app; simpl; lia|done]);
      destruct (IH w1) as [Hle Heq]; rewrite Hr, ?length_app in *;
      simpl in *; (split; [lia|intros Hok; specialize (Heq Hok); lia]).
Qed.

(** X14.  The immigration phase only appends: the live list it found is
    a prefix of the one it leaves, whatever the outcome; and if every
    live agent was attached and listed once, that still holds after it,
    each newcomer being a new object with a handle. *)
Theorem immigration_season_appends (fuel : nat) (population_minimum : Z)
    (w : World) :
  pop_inv w →
  let w' := fst (immigration_season fuel population_minimum w) in
  pop_inv w' ∧ _robots w `prefix_of` _robots w'.
Proof. apply immigration_season_inv. Qed.

(** X15.  The immigration phase never overshoots: the live list never
    gets longer than the larger of its length at the start and the
    minimum, and on a normal return its length is exactly that. *)
Theorem immigration_season_exact (fuel : nat) (population_minimum : Z)
    (w : World) :
  let w' := fst (immigration_season fuel population_minimum w) in
  (Z.of_nat (length (_robots w'))
   <= Z.max (Z.of_nat (length (_robots w))) population_minimum)%Z ∧
  (snd (immigration_season fuel population_minimum w) = Ok tt →
   Z.of_nat (length (_robots w'))
   = Z.max (Z.of_nat (length (_robots w))) population_minimum).
Proof. apply immigration_season_length. Qed.

(** ** The mating phase *)

Section FurtherSeason.
Variable new_child : Genotype → Individual + exn.

(** [mate] keeps every handle, and a child it returns is a new object. *)
Lemma mate_effect (self other : addr) (m : Q) (w : World) :
  ∃ h, fst (mate new_child self other m w) = with_heap h w ∧
       (∀ x i mg, heap w !! x = Some i → manager i = Some mg →
                  ∃ i' mg', h !! x = Some i' ∧ manager i' = Some mg') ∧
       ∀ c, snd (mate new_child self other m w) = Ok (Some c) →
            heap w !! c = None ∧ is_Some (h !! c).
Proof.
  assert (Hsame : ∀ r,
            mate new_child self other m w = (w, r) →
            (∀ c, r ≠ Ok (Some c)) →
            ∃ h, fst (mate new_child self other m w) = with_heap h w ∧
              (∀ x i mg, heap w !! x = Some i → manager i = Some mg →
                 ∃ i' mg', h !! x = Some i' ∧ manager i' = Some mg') ∧
              ∀ c, snd (mate new_child self other m w) = Ok (Some c) →
                   heap w !! c = None ∧ is_Some (h !! c)).
  { intros r Hrun Hr. exists (heap w). rewrite Hrun, with_heap_id. simpl.
    split; [done|]. split; [eauto|]. intros c Hc. by destruct (Hr c). }
  destruct (snd (_wants_to_mate self other m w)) as [[]|e|] eqn:Ha;
    [destruct (snd (_wants_to_mate other self m w)) as [[]|e|] eqn:Hb|..].
  - destruct (wants_to_mate_true_managed _ _ _ _ Ha)
      as (s & o & ms & mo & Hs & Hms & Ho & Hmo).
    rewrite (mate_accepted new_child _ _ _ _ _ _ _ _ Hs Hms Ho Hmo Ha Hb).
    set (h1 := <[self := set_manager (Some (saved ms mo)) s]> (heap w)).
    assert (Hkeep : ∀ x i mg, heap w !! x = Some i → manager i = Some mg →
                      ∃ i' mg', h1 !! x = Some i' ∧ manager i' = Some mg').
    { intros x i mg Hi Hmg. unfold h1.
      destruct (decide (self = x)) as [<-|Hne].
      - rewrite lookup_insert_eq. eauto.
      - rewrite lookup_insert_ne by done. eauto. }
    assert (Hold : ∀ x, is_Some (heap w !! x) → fresh (dom h1) ≠ x).
    { intros x [i Hi] E. apply (is_fresh (dom h1)). rewrite E.
      apply elem_of_dom. unfold h1.
      destruct (decide (self = x)) as [<-|Hne].
      - rewrite lookup_insert_eq. eauto.
      - rewrite lookup_insert_ne by done. eauto. }
    destruct (new_child _) as [child|e]; simpl; fold h1.
    + eexists. split; [done|]. split.
      * intros x i mg Hi Hmg.
        rewrite lookup_insert_ne by (apply Hold; eauto). by eapply Hkeep.
      * intros c [= <-]. split.
        -- destruct (heap w !! fresh (dom h1)) as [i|] eqn:Hi; [|done].
           exfalso. by apply (Hold (fresh (dom h1))); eauto.
        -- rewrite lookup_insert_eq. eauto.
    + exists h1. split; [done|]. split; [done|]. intros c [=].
  - apply (Hsame (Ok None)); [|done].
    apply mate_refused. auto.
  - apply (Hsame (Raise e)); [|done].
    unfold mate. unmonad.
    rewrite (wants_to_mate_run self other), Ha. simpl.
    by rewrite (wants_to_mate_run other self), Hb.
  - by destruct (wants_to_mate_fuel other self m w).
  - apply (Hsame (Ok None)); [|done].
    apply mate_refused. auto.
  - apply (Hsame (Raise e)); [|done].
    unfold mate. unmonad.
    by rewrite (wants_to_mate_run self other), Ha.
  - by destruct (wants_to_mate_fuel self other m w).
Qed.

(** After [place_offspring] on a new object, the population is still
    well formed. *)
Lemma place_offspring_inv (c : addr) (w : World) :
  pop_inv w → c ∉ _robots w → is_Some (heap w !! c) →
  pop_inv (fst (place_offspring c w)).
Proof.
  intros [Hall Hnd] Hc [i Hi].
  rewrite (place_offspring_run c w i Hi).
  destruct (free_random_spawn_pos_frame default_distance default_tries
              (offspring_registered c w)) as [k Hk].
  assert (Hreg : pop_inv (with_rng k (offspring_registered c w))).
  { split; [|done]. intros a Ha. unfold offspring_registered. simpl.
    rewrite Hi. rewrite lookup_insert_ne by (intros ->; done).
    by apply Hall. }
  destruct (_free_random_spawn_pos _ _ _) as [w1 [p|e|]]; simpl in *;
    subst w1; [|by destruct (decide (e = NoPositionFound))|done].
  unfold offspring_inserted, offspring_registered. simpl.
  rewrite Hi. simpl. rewrite lookup_insert_eq. simpl. split.
  - intros a Ha. simpl in *.
    apply elem_of_app in Ha as [Ha| ->%list_elem_of_singleton].
    + rewrite !lookup_insert_ne by (intros ->; done). by apply Hall.
    + rewrite lookup_insert_eq. eauto.
  - simpl. apply NoDup_app. split; [done|]. split; [|apply NoDup_singleton].
    intros a Ha ->%list_elem_of_singleton. done.
Qed.

Lemma mating_body_pop_inv (a b : addr) (w : World) :
  pop_inv w →
  pop_inv (fst (mating_body new_child a b w)) ∧
  _robots w `prefix_of` _robots (fst (mating_body new_child a b w)).
Proof.
  intros Hinv.
  destruct (Z.gtb_spec (Z.of_nat (length (_robots w))) MAX_POP) as [Hover|Hcap].
  { destruct (mating_body_step new_child a b w) as (_ & Hsame & _).
    by rewrite Hsame by lia. }
  destruct (decide (a = b)) as [->|Hne].
  { assert (Hrun : mating_body new_child b b w = (w, Ok tt)).
    { unfold mating_body, len_robots. unmonad. simpl.
      destruct (Z.gtb_spec (Z.of_nat (length (_robots w))) MAX_POP);
        [lia|]. by destruct (decide (b = b)). }
    by rewrite Hrun. }
  rewrite (mating_body_run new_child a b w Hne Hcap).
  set (w_call := with_trace (EvMate a b (length (_robots w)) :: trace w) w).
  destruct (mate_effect a b (_mating_multiplier w) w_call)
    as (h & Hfst & Hkeep & Hchild).
  assert (Hmated : pop_inv (with_heap h w_call)).
  { destruct Hinv as [Hall Hnd]. split; [|done].
    intros x Hx. destruct (Hall x Hx) as (i & mg & Hi & Hmg).
    by apply (Hkeep x i mg). }
  destruct (mate new_child a b (_mating_multiplier w) w_call)
    as [wm [[c|]|e|]]; simpl in Hfst; subst wm; try done.
  destruct (Hchild c eq_refl) as [Hnew Hin].
  assert (Hc : c ∉ _robots w).
  { intros Hx. destruct Hinv as [Hall _].
    destruct (Hall c Hx) as (i & mg & Hi & _). simpl in Hnew. congruence. }
  split; [by apply place_offspring_inv|].
  destruct (place_offspring_step c (with_heap h w_call))
    as [[Hr _]|[Hr _]]; simpl in Hr; rewrite Hr; [done|].
  by apply prefix_app_r.
Qed.

Lemma mating_season_inv (fuel : nat) (w : World) :
  pop_inv w →
  pop_inv (fst (mating_season new_child fuel w)) ∧
  _robots w `prefix_of` _robots (fst (mating_season new_child fuel w)).
Proof.
  intros Hinv. rewrite mating_season_unfold.
  destruct (_ >? _)%Z; [done|].
  set (P := λ w' : World, pop_inv w' ∧ _robots w `prefix_of` _robots w').
  assert (Hbody : ∀ x w1, P w1 →
                    P (fst (mating_outer_body new_child fuel x w1))).
  { intros x w1 Hw1. unfold mating_outer_body. unmonad.
    destruct (mature_run x w1) as [-> _].
    destruct (snd (mature x w1)) as [[]| |]; simpl; try done.
    apply (for_robots_inv P); [|done].
    intros y w2 [Hinv2 Hpre2].
    destruct (mating_body_pop_inv x y w2 Hinv2) as [Hinv3 Hpre3].
    split; [done|]. by etrans. }
  pose proof (for_robots_inv P _ Hbody fuel 0%nat w) as Hloop.
  destruct (for_robots fuel (mating_outer_body new_child fuel) 0 w)
    as [w' [[]|[]|]]; simpl in *; by apply Hloop.
Qed.

(** X16.  The mating phase keeps the population well formed and only
    appends: if every live agent was attached and listed once before the
    phase, that holds after it, whatever its outcome and whatever the
    constructor of line 171 does, and the live list it found is a prefix
    of the one it leaves. *)
Theorem mating_season_appends (fuel : nat) (w : World) :
  pop_inv w →
  let w' := fst (mating_season new_child fuel w) in
  pop_inv w' ∧ _robots w `prefix_of` _robots w'.
Proof. apply mating_season_inv. Qed.

End FurtherSeason.

(** *** The phase with the constructor as written *)

Lemma mate_as_written_no_child (a b : addr) (m : Q) (w : World) (c : addr) :
  snd (mate child_as_written a b m w) ≠ Ok (Some c).
Proof.
  destruct (snd (_wants_to_mate a b m w)) as [[]|e|] eqn:Ha;
    [destruct (snd (_wants_to_mate b a m w)) as [[]|e|] eqn:Hb|..].
  - destruct (wants_to_mate_true_managed _ _ _ _ Ha)
      as (s & o & ms & mo & Hs & Hms & Ho & Hmo).
    by rewrite (mate_accepted _ _ _ _ _ _ _ _ _ Hs Hms Ho Hmo Ha Hb).
  - by rewrite mate_refused by auto.
  - unfold mate. unmonad.
    rewrite (wants_to_mate_run a b), Ha. simpl.
    by rewrite (wants_to_mate_run b a), Hb.
  - by destruct (wants_to_mate_fuel b a m w).
  - by rewrite mate_refused by auto.
  - unfold mate. unmonad. by rewrite (wants_to_mate_run a b), Ha.
  - by destruct (wants_to_mate_fuel a b m w).
Qed.

Lemma mating_body_as_written (w0 : World) (a b : addr) (w : World) :
  bookkeeping_only w0 w →
  bookkeeping_only w0 (fst (mating_body child_as_written a b w)).
Proof.
  intros (h0 & t0 & ->).
  set (w := with_trace t0 (with_heap h0 w0)).
  destruct (Z.gtb_spec (Z.of_nat (length (_robots w))) MAX_POP) as [Hover|Hcap].
  { destruct (mating_body_step child_as_written a b w) as (_ & Hsame & _).
    rewrite Hsame by lia. by exists h0, t0. }
  destruct (decide (a = b)) as [->|Hne].
  { assert (Hrun : mating_body child_as_written b b w = (w, Ok tt)).
    { unfold mating_body, len_robots. unmonad. simpl.
      destruct (Z.gtb_spec (Z.of_nat (length (_robots w0))) MAX_POP);
        [simpl in Hcap; lia|]. by destruct (decide (b = b)). }
    rewrite Hrun. by exists h0, t0. }
  rewrite (mating_body_run child_as_written a b w Hne Hcap).
  set (w_call := with_trace (EvMate a b (length (_robots w)) :: trace w) w).
  destruct (mate_cases child_as_written a b (_mating_multiplier w) w_call)
    as (h & Hfst & _ & _).
  pose proof (mate_as_written_no_child a b (_mating_multiplier w) w_call)
    as Hnone.
  destruct (mate child_as_written a b (_mating_multiplier w) w_call)
    as [wm [[c|]|e|]]; simpl in Hfst, Hnone; subst wm;
    [by destruct (Hnone c)|..];
    by exists h, (EvMate a b (length (_robots w)) :: trace w).
Qed.

(** X17.  With the class as written the mating phase is barren: whatever
    the population and however the phase ends, the live list, the buffer
    of recent children, the id counter and the random generator are what
    they were, so no offspring was recorded, numbered, placed or
    inserted. *)
Theorem mating_season_as_written_barren (fuel : nat) (w : World) :
  let w' := fst (mating_season child_as_written fuel w) in
  _robots w' = _robots w ∧
  _recent_children w' = _recent_children w ∧
  _robot_id_counter w' = _robot_id_counter w ∧
  rng w' = rng w.
Proof.
  assert (Hb : bookkeeping_only w
                 (fst (mating_season child_as_written fuel w))).
  { rewrite mating_season_unfold.
    destruct (_ >? _)%Z; [exists (heap w), (trace w); by destruct w|].
    assert (Hbody : ∀ x w1, bookkeeping_only w w1 →
              bookkeeping_only w
                (fst (mating_outer_body child_as_written fuel x w1))).
    { intros x w1 Hw1. unfold mating_outer_body. unmonad.
      destruct (mature_run x w1) as [-> _].
      destruct (snd (mature x w1)) as [[]| |]; simpl; try done.
      apply (for_robots_inv (bookkeeping_only w)); [|done].
      intros y w2. apply mating_body_as_written. }
    pose proof (for_robots_inv (bookkeeping_only w) _ Hbody fuel 0%nat w)
      as Hloop.
    destruct (for_robots fuel (mating_outer_body child_as_written fuel) 0 w)
      as [w' [[]|[]|]]; simpl in *; apply Hloop;
      exists (heap w), (trace w); by destruct w. }
  destruct Hb as (h & t & ->). done.
Qed.

(** *** A population without mature agents *)

Lemma for_robots_skip (body : addr → M unit) (w : World) :
  (∀ x, x ∈ _robots w → body x w = (w, Ok tt)) →
  ∀ fuel i, length (_robots w) ≤ fuel + i →
            for_robots fuel body i w = (w, Ok tt).
Proof.
  intros Hbody fuel. induction fuel as [|fuel IH]; intros i Hf;
    rewrite for_robots_unfold;
    destruct (_robots w !! i) as [x|] eqn:Hx; try done.
  - apply lookup_lt_Some in Hx. lia.
  - rewrite Hbody by (by eapply list_elem_of_lookup_2). apply IH. lia.
Qed.

(** X18.  Only mature agents initiate: when no live agent is mature, the
    mating phase returns normally and leaves the world exactly as it
    was, for any constructor. *)
Theorem mating_season_immature (new_child : Genotype → Individual + exn)
    (fuel : nat) (w : World) :
  (∀ a, a ∈ _robots w → snd (mature a w) = Ok false) →
  length (_robots w) ≤ fuel →
  mating_season new_child fuel w = (w, Ok tt).
Proof.
  intros Hyoung Hf. rewrite mating_season_unfold.
  destruct (_ >? _)%Z; [done|].
  rewrite for_robots_skip; [done| |lia].
  intros x Hx. unfold mating_outer_body. unmonad.
  destruct (mature_run x w) as [-> _]. by rewrite (Hyoung x Hx).
Qed.

(** ** The controller *)

(** X19.  [adjust_mating_multiplier] keeps a positive multiplier
    positive as long as the rate is positive (in exact arithmetic), and
    touches nothing but the multiplier, the window start and the buffer
    of recent children. *)
Theorem adjust_keeps_multiplier_positive (time : Q) (w : World) :
  (0 < _mating_multiplier w)%Q → (0 < _mating_increase_rate w)%Q →
  let w' := fst (adjust_mating_multiplier time w) in
  (0 < _mating_multiplier w')%Q ∧
  heap w' = heap w ∧ _robots w' = _robots w ∧
  _robot_id_counter w' = _robot_id_counter w ∧
  _mating_increase_rate w' = _mating_increase_rate w ∧
  _recent_children_delta_time w' = _recent_children_delta_time w ∧
  rng w' = rng w ∧ trace w' = trace w.
Proof.
  intros Hm Hr. unfold adjust_mating_multiplier.
  destruct (Qltb _ 0); [done|]. destruct (Qgtb _ _); [|done]. simpl.
  destruct (_ <? 3)%Z; simpl.
  - split; [|done]. by apply Qmult_lt_0_compat.
  - destruct (_ >? 10)%Z; simpl; [|done].
    destruct (Qeq_bool (_mating_increase_rate w) 0) eqn:Hzero; simpl.
    { apply Qeq_bool_iff in Hzero. rewrite Hzero in Hr.
      by apply Qlt_irrefl in Hr. }
    split; [|done]. apply Qlt_shift_div_l; [done|].
    by rewrite Qmult_0_l.
Qed.

(** ** One iteration of the life loop *)

Lemma bind_ok {A B} (m : M A) (k : A → M B) (w w' : World) (b : B) :
  (m ≫= k) w = (w', Ok b) →
  ∃ a w1, m w = (w1, Ok a) ∧ k a w1 = (w', Ok b).
Proof.
  unmonad. destruct (m w) as [w1 [a| |]]; [|done..].
  intros Hk. by exists a, w1.
Qed.

Lemma bind_fst_inv {A B} (m : M A) (k : A → M B) (R : World → Prop)
    (w : World) :
  R (fst (m w)) → (∀ a w1, R w1 → R (fst (k a w1))) →
  R (fst ((m ≫= k) w)).
Proof.
  intros Hm Hk. unmonad.
  destruct (m w) as [w1 [a| |]]; simpl in *; [by apply Hk|done..].
Qed.

Lemma death_body_gain (x : addr) (w : World) :
  same_gain w (fst (death_body x w)).
Proof.
  unfold death_body, _remove_individual, export, manager_of, obj, same_gain.
  unmonad.
  destruct (heap w !! x) as [i|] eqn:Hi; simpl; [|done].
  destruct (manager i) as [m|] eqn:Hm; simpl; [|done].
  destruct (dead m); simpl; [|done].
  destruct (list_remove x (_robots w)); simpl; [|done].
  rewrite Hi. simpl. by rewrite Hm.
Qed.

Lemma same_gain_trans (w0 w1 w2 : World) :
  same_gain w0 w1 → same_gain w1 w2 → same_gain w0 w2.
Proof. intros [H1 H2] [H3 H4]. split; congruence. Qed.

Lemma death_season_gain (w : World) : same_gain w (fst (death_season w)).
Proof.
  unfold death_season. apply (for_robots_inv (same_gain w)); [|done].
  intros x w1 Hw1. eapply same_gain_trans; [done|apply death_body_gain].
Qed.

Lemma immigration_season_gain (fuel : nat) (min : Z) (w : World) :
  same_gain w (fst (immigration_season fuel min w)).
Proof.
  revert w. induction fuel as [|fuel IH]; intros w.
  - cbn [immigration_season]. unfold len_robots. unmonad.
    by destruct (_ <? _)%Z.
  - rewrite immigration_season_unfold.
    destruct (_ <? _)%Z; [|done].
    assert (Hstep : same_gain w (fst (immigration_attempt w))).
    { unfold immigration_attempt, try_except, append_robot. unmonad. simpl.
      destruct (generate_insert_effect (_robot_id_counter w + 1)
                  (with_counter (_robot_id_counter w + 1) w))
        as [(p & k & i & Hrun & _)|(k & i & e & Hrun)]; rewrite Hrun;
        simpl; [done|].
      by destruct (decide (e = NoPositionFound)). }
    destruct (immigration_attempt w) as [w1 [[]| |]]; simpl in *; try done.
    eapply same_gain_trans; [done|apply IH].
Qed.

Section FurtherLoop.
Variable new_child : Genotype → Individual + exn.

Lemma mating_body_gain (a b : addr) (w : World) :
  same_gain w (fst (mating_body new_child a b w)).
Proof.
  destruct (Z.gtb_spec (Z.of_nat (length (_robots w))) MAX_POP) as [Hover|Hcap].
  { destruct (mating_body_step new_child a b w) as (_ & Hsame & _).
    by rewrite Hsame by lia. }
  destruct (decide (a = b)) as [->|Hne].
  { assert (Hrun : mating_body new_child b b w = (w, Ok tt)).
    { unfold mating_body, len_robots. unmonad. simpl.
      destruct (Z.gtb_spec (Z.of_nat (length (_robots w))) MAX_POP);
        [lia|]. by destruct (decide (b = b)). }
    by rewrite Hrun. }
  rewrite (mating_body_run new_child a b w Hne Hcap).
  set (w_call := with_trace (EvMate a b (length (_robots w)) :: trace w) w).
  destruct (mate_cases new_child a b (_mating_multiplier w) w_call)
    as (h & Hfst & _ & Hchild).
  destruct (mate new_child a b (_mating_multiplier w) w_call)
    as [wm [[c|]|e|]]; simpl in Hfst; subst wm; try done.
  destruct (Hchild c eq_refl) as [i Hi].
  rewrite (place_offspring_run c _ i) by done.
  destruct (free_random_spawn_pos_frame default_distance default_tries
              (offspring_registered c (with_heap h w_call))) as [k Hk].
  destruct (_free_random_spawn_pos _ _ _) as [w1 [p|e|]]; simpl in *;
    subst w1; [|by destruct (decide (e = NoPositionFound))|done].
  unfold offspring_inserted, offspring_registered. simpl.
  rewrite Hi. simpl. by rewrite lookup_insert_eq.
Qed.

Lemma mating_season_gain (fuel : nat) (w : World) :
  same_gain w (fst (mating_season new_child fuel w)).
Proof.
  rewrite mating_season_unfold. destruct (_ >? _)%Z; [done|].
  assert (Hbody : ∀ x w1, same_gain w w1 →
            same_gain w (fst (mating_outer_body new_child fuel x w1))).
  { intros x w1 Hw1. unfold mating_outer_body. unmonad.
    destruct (mature_run x w1) as [-> _].
    destruct (snd (mature x w1)) as [[]| |]; simpl; try done.
    apply (for_robots_inv (same_gain w)); [|done].
    intros y w2 Hw2. eapply same_gain_trans; [done|apply mating_body_gain]. }
  pose proof (for_robots_inv (same_gain w) _ Hbody fuel 0%nat w) as Hloop.
  destruct (for_robots fuel (mating_outer_body new_child fuel) 0 w)
    as [w' [[]|[]|]]; simpl in *; by apply Hloop.
Qed.

Lemma mating_season_cap_inv (fuel : nat) (w : World) :
  cap_inv w (fst (mating_season new_child fuel w)).
Proof.
  rewrite mating_season_unfold.
  destruct (_ >? _)%Z; [apply cap_inv_refl|].
  pose proof (for_robots_inv (cap_inv w)
                (mating_outer_body new_child fuel)
                (λ x w1, mating_outer_body_inv new_child w fuel x w1)
                fuel 0%nat w (cap_inv_refl w)) as Hinv.
  by destruct (for_robots fuel (mating_outer_body new_child fuel) 0 w)
    as [w' [[]|[]|]].
Qed.

(** X20.  With the shipped rate of 1.0 a whole iteration of the life
    loop (death, mating, immigration, controller) leaves the mating
    multiplier and the rate as they were, whatever the population, the
    time and the outcome: the phases never write them and the controller
    multiplies or divides by one. *)
Theorem run_iteration_keeps_multiplier (fuel : nat) (now : Q) (w : World) :
  _mating_increase_rate w = MATING_INCREASE_RATE →
  same_gain w (fst (run_iteration new_child fuel now w)).
Proof.
  intros Hrate. unfold run_iteration.
  apply (bind_fst_inv _ _ (same_gain w)); [apply death_season_gain|].
  intros _ w1 Hw1.
  apply (bind_fst_inv _ _ (same_gain w)).
  { eapply same_gain_trans; [done|apply mating_season_gain]. }
  intros _ w2 Hw2.
  apply (bind_fst_inv _ _ (same_gain w)).
  { eapply same_gain_trans; [done|apply immigration_season_gain]. }
  intros _ w3 [Hm3 Hr3]. split.
  - rewrite adjust_rate_one; [done|congruence].
  - by rewrite adjust_keeps_rate.
Qed.

(** X21.  An iteration of the life loop that returns, started on a well
    formed population, leaves a well formed population of at least
    [MIN_POP] agents and of at most the larger of its size at the start
    and [MAX_POP + 1]. *)
Theorem run_iteration_population (fuel : nat) (now : Q) (w w' : World) :
  pop_inv w →
  run_iteration new_child fuel now w = (w', Ok tt) →
  pop_inv w' ∧
  (MIN_POP <= Z.of_nat (length (_robots w')))%Z ∧
  (Z.of_nat (length (_robots w'))
   <= Z.max (Z.of_nat (length (_robots w))) (MAX_POP + 1))%Z.
Proof.
  intros Hinv Hrun. unfold run_iteration in Hrun.
  apply bind_ok in Hrun as ([] & w1 & Hdeath & Hrun).
  apply bind_ok in Hrun as ([] & w2 & Hmate & Hrun).
  apply bind_ok in Hrun as ([] & w3 & Himm & Hadj).
  (* death *)
  assert (H1 : pop_inv w1 ∧ length (_robots w1) ≤ length (_robots w)).
  { rewrite death_season_run in Hdeath by done.
    injection Hdeath as <-. simpl.
    pose proof (sweep_sublist (is_dead w) (_robots w)) as Hsub.
    destruct Hinv as [Hall Hnd]. split; [split|by apply sublist_length].
    - intros a Ha. apply Hall. by eapply elem_of_sublist.
    - by eapply sublist_NoDup. }
  destruct H1 as [Hinv1 Hlen1].
  (* mating *)
  pose proof (mating_season_inv new_child fuel w1 Hinv1) as [Hinv2 _].
  pose proof (mating_season_cap_inv fuel w1) as (_ & Hlen2 & _).
  rewrite Hmate in Hinv2, Hlen2. simpl in Hinv2, Hlen2.
  (* immigration *)
  pose proof (immigration_season_inv fuel MIN_POP w2 Hinv2) as [Hinv3 _].
  pose proof (immigration_season_length fuel MIN_POP w2) as [_ Hlen3].
  rewrite Himm in Hinv3, Hlen3. simpl in Hinv3, Hlen3.
  specialize (Hlen3 eq_refl).
  (* controller *)
  assert (H4 : heap w' = heap w3 ∧ _robots w' = _robots w3).
  { revert Hadj. unfold adjust_mating_multiplier.
    destruct (Qltb _ 0); [by intros [= <-]|].
    destruct (Qgtb _ _); [|by intros [= <-]]. simpl.
    destruct (_ <? 3)%Z; [by intros [= <-]|].
    destruct (_ >? 10)%Z; [|by intros [= <-]].
    by destruct (Qeq_bool _ 0); intros [= <-]. }
  destruct H4 as [Hh4 Hr4].
  split; [|rewrite Hr4; unfold MIN_POP, MAX_POP in *; lia].
  destruct Hinv3 as [Hall3 Hnd3]. split.
  - intros a Ha. rewrite Hh4. apply Hall3. by rewrite <- Hr4.
  - by rewrite Hr4.
Qed.

End FurtherLoop.

End Further.

(** ** The experiment folder *)

Lemma free_counter_least (ex : string → bool) (base : string) (fuel : nat) :
  ∀ c n, free_counter fuel ex base c = Some n →
         c ≤ n ∧ ex (path_join base (pretty n)) = false ∧
         ∀ k, c ≤ k < n → ex (path_join base (pretty k)) = true.
Proof.
  induction fuel as [|fuel IH]; intros c n; cbn [free_counter];
    destruct (ex (path_join base (pretty c))) eqn:Hc; try done.
  - intros [= <-]. split; [lia|]. split; [done|]. intros k Hk. lia.
  - intros Hn. destruct (IH _ _ Hn) as (Hle & Hfree & Hbelow).
    split; [lia|]. split; [done|]. intros k Hk.
    destruct (decide (k = c)) as [->|Hne]; [done|]. apply Hbelow. lia.
  - intros [= <-]. split; [lia|]. split; [done|]. intros k Hk. lia.
Qed.

Lemma free_counter_found (ex : string → bool) (base : string) (fuel : nat) :
  ∀ c n, c ≤ n ≤ c + fuel → ex (path_join base (pretty n)) = false →
         is_Some (free_counter fuel ex base c).
Proof.
  induction fuel as [|fuel IH]; intros c n Hn Hfree; cbn [free_counter];
    destruct (ex (path_join base (pretty c))) eqn:Hc; try done.
  - replace n with c in Hfree by lia. congruence.
  - destruct (decide (n = c)) as [->|Hne]; [congruence|].
    apply (IH (S c) n); [lia|done].
Qed.

(** X22.  [make_folders] picks the lowest-numbered folder under the base
    directory that does not exist yet: every lower number is taken, the
    chosen path itself was free, and the four [mkdir] calls are for it
    and its three subfolders.  It asserts first that the base is a
    directory, and it finds a folder as soon as one number is free. *)
Theorem make_folders_lowest_free (fuel : nat) (isdir ex : string → bool)
    (base : string) :
  (isdir base = false → make_folders fuel isdir ex base = AssertionError) ∧
  (∀ dirpath mkdirs,
     make_folders fuel isdir ex base = Made dirpath mkdirs →
     isdir base = true ∧
     ∃ n, dirpath = path_join base (pretty n) ∧
          ex dirpath = false ∧
          (∀ k, k < n → ex (path_join base (pretty k)) = true) ∧
          mkdirs = [dirpath; dirpath +:+ "/genotypes";
                    dirpath +:+ "/phenotypes"; dirpath +:+ "/descriptors"]) ∧
  (isdir base = true →
   ∀ n, n ≤ fuel → ex (path_join base (pretty n)) = false →
        ∃ dirpath mkdirs, make_folders fuel isdir ex base
                          = Made dirpath mkdirs).
Proof.
  unfold make_folders. split; [|split].
  - by intros ->.
  - intros dirpath mkdirs. destruct (isdir base); simpl; [|done].
    destruct (free_counter fuel ex base 0) as [n|] eqn:Hn; [|done].
    intros [= <- <-]. split; [done|].
    destruct (free_counter_least _ _ _ _ _ Hn) as (_ & Hfree & Hbelow).
    exists n. repeat split; try done. intros k Hk. apply Hbelow. lia.
  - intros -> n Hn Hfree. simpl.
    destruct (free_counter_found ex base fuel 0 n) as [c Hc]; [lia|done|].
    rewrite Hc. eauto.
Qed.

(** * The further properties at work *)

Section FurtherConcrete.
Import Demo.

Lemma unattached_never_mates_witness :
  mate child_as_written 1 0 1 couple_detached = (couple_detached, Ok None).
Proof.
  refine (proj2 (unattached_never_mates child_as_written 1 0 1
                   couple_detached (detached rnd_half) _ _));
    reflexivity.
Defined.

Lemma mate_then_cooldown_witness :
  snd (_wants_to_mate 0 1 3
         (fst (mate child_as_written 0 1 1 couple_crowded))) = Ok false.
Proof.
  refine (proj1 (mate_then_cooldown child_as_written 0 1 1 3
                   couple_crowded _ _)); vm_compute; reflexivity.
Defined.

Lemma clone_from_returns_none_witness :
  snd (clone_from 0 couple_crowded) = Ok None.
Proof.
  refine (proj1 (clone_from_returns_none 0 couple_crowded
                   (attached rnd_half handle_a) _)).
  reflexivity.
Defined.

Lemma mate_refusal_symmetric_witness :
  snd (mate child_as_written 0 1 (1 # 2) couple_crowded) = Ok None ∧
  snd (mate child_as_written 1 0 (1 # 2) couple_crowded) = Ok None.
Proof.
  assert (Hab : snd (mate child_as_written 0 1 (1 # 2) couple_crowded)
                = Ok None) by (vm_compute; reflexivity).
  split; [exact Hab|].
  refine (proj1 (mate_refusal_symmetric child_as_written 0 1 (1 # 2)
                   couple_crowded
                   (attached rnd_half handle_a) (attached rnd_half handle_b)
                   handle_a handle_b _ _ _ _) Hab); reflexivity.
Defined.

Lemma free_random_spawn_pos_sound_witness :
  clear_of corner (candidate (H := ports rnd_walk) 0 1) default_distance.
Proof.
  apply (free_random_spawn_pos_sound default_distance 3 corner).
  vm_compute. reflexivity.
Defined.

Lemma unit_samples_half : unit_samples (H := ports rnd_half).
Proof. intros k. split; by vm_compute. Qed.

Lemma free_random_spawn_pos_in_arena_witness :
  (vx (candidate (H := ports rnd_half) 0 0) < LIMIT_X)%Q.
Proof.
  refine (proj1 (proj2 (free_random_spawn_pos_in_arena default_distance 3
                          (Population_init (H := ports rnd_half))
                          (candidate (H := ports rnd_half) 0 0)
                          unit_samples_half _))).
  vm_compute. reflexivity.
Defined.

Lemma free_random_spawn_pos_empty_witness :
  _free_random_spawn_pos default_distance (-5)
    (Population_init (H := ports rnd_half))
  = (with_rng 2 Population_init, Ok (candidate (H := ports rnd_half) 0 0)).
Proof.
  apply (free_random_spawn_pos_empty default_distance (-5)
           (Population_init (H := ports rnd_half))).
  reflexivity.
Defined.

Lemma remove_individual_absent_witness :
  _remove_individual 7 couple_crowded = (couple_crowded, Raise ValueError).
Proof.
  apply (remove_individual_absent 7 couple_crowded).
  vm_compute. intros Hin. by repeat (apply elem_of_cons in Hin as [?|Hin];
    [done|]); apply not_elem_of_nil in Hin.
Defined.

Lemma remove_individual_present_witness :
  _robots (fst (_remove_individual 1 two_dead)) = [0%nat; 2%nat].
Proof.
  rewrite (remove_individual_present 1 two_dead [0%nat] [2%nat]
             (robot rnd_half "r1" 1 1 50 true)).
  - reflexivity.
  - reflexivity.
  - intros Hin. apply elem_of_cons in Hin as [?|Hin]; [done|].
    by apply not_elem_of_nil in Hin.
  - reflexivity.
Defined.

Lemma death_season_sweeps_witness :
  _robots (fst (death_season two_dead)) = [1%nat; 2%nat].
Proof.
  rewrite (death_season_sweeps two_dead); [reflexivity|].
  by apply pop_invb_sound.
Defined.

Lemma death_season_removes_the_dead_witness :
  _robots (fst (death_season dead_apart)) = [1%nat].
Proof.
  rewrite (proj2 (death_season_removes_the_dead dead_apart
                    (pop_invb_sound dead_apart eq_refl) eq_refl)).
  reflexivity.
Defined.

Lemma death_season_spares_the_living_witness :
  2%nat ∈ _robots (fst (death_season two_dead)) ∧
  length (_robots (fst (death_season two_dead))) < 3.
Proof.
  destruct (death_season_spares_the_living two_dead
              (pop_invb_sound two_dead eq_refl)) as (_ & _ & Hkeep & Hless).
  split.
  - apply Hkeep; [|reflexivity]. vm_compute. do 2 right. left.
  - apply (Hless 0%nat); [|reflexivity]. vm_compute. left.
Defined.

Lemma immigration_season_appends_witness :
  _robots lonely `prefix_of` _robots (fst (immigration_season 2 2 lonely)).
Proof.
  apply (immigration_season_appends 2 2 lonely).
  by apply pop_invb_sound.
Defined.

Lemma immigration_season_exact_witness :
  Z.of_nat (length (_robots (fst (immigration_season 2 2 lonely)))) = 2%Z.
Proof.
  rewrite (proj2 (immigration_season_exact 2 2 lonely)).
  - reflexivity.
  - vm_compute. reflexivity.
Defined.

Lemma mating_season_appends_witness :
  pop_inv (fst (mating_season child_as_written 101 couple_roomy)).
Proof.
  apply (mating_season_appends child_as_written 101 couple_roomy).
  by apply pop_invb_sound.
Defined.

Lemma mating_season_immature_witness :
  mating_season child_as_written 101 nursery = (nursery, Ok tt).
Proof.
  apply (mating_season_immature child_as_written 101 nursery).
  - intros a Ha.
    assert (Hlt : a < 19).
    { apply list_elem_of_lookup in Ha as [i Hi].
      apply lookup_seq in Hi as [-> Hi]. simpl in Hi. lia. }
    do 19 (destruct a as [|a]; [vm_compute; reflexivity|]). lia.
  - vm_compute. lia.
Defined.

Lemma adjust_keeps_multiplier_positive_witness :
  (0 < _mating_multiplier
         (fst (adjust_mating_multiplier 31 (window_open []))))%Q.
Proof.
  apply (adjust_keeps_multiplier_positive 31 (window_open [])); reflexivity.
Defined.

Lemma run_iteration_keeps_multiplier_witness :
  _mating_multiplier
    (fst (run_iteration child_as_written 101 31 couple_roomy)) = 1%Q.
Proof.
  apply (run_iteration_keeps_multiplier child_as_written 101 31
           couple_roomy).
  reflexivity.
Defined.

Lemma run_iteration_population_witness :
  (MIN_POP
   <= Z.of_nat (length (_robots
                          (fst (run_iteration child_as_written 101 31
                                  nursery)))))%Z.
Proof.
  apply (run_iteration_population child_as_written 101 31 nursery
           (fst (run_iteration child_as_written 101 31 nursery))).
  - by apply pop_invb_sound.
  - vm_compute. reflexivity.
Defined.

(** The iteration on the nursery in full: the dead robot leaves, two
    immigrants fill the population back to [MIN_POP]. *)
Example run_iteration_nursery :
  let run := run_iteration child_as_written 101 31 nursery in
  snd run = Ok tt ∧ length (_robots (fst run)) = 20 ∧
  hd_error (_robots (fst run)) = Some 1%nat.
Proof. vm_compute. repeat split. Qed.

Lemma make_folders_lowest_free_witness :
  ∃ mkdirs, make_folders 10 (λ _, true) two_runs "/exp"
            = Made "/exp/2" mkdirs.
Proof.
  destruct (proj2 (proj2 (make_folders_lowest_free 10 (λ _, true) two_runs
                            "/exp")) eq_refl 2) as (d & mk & Hrun).
  - lia.
  - vm_compute. reflexivity.
  - exists mk. rewrite Hrun. f_equal.
    assert (Hd : make_folders 10 (λ _, true) two_runs "/exp"
                 = Made "/exp/2"
                     ["/exp/2"; "/exp/2/genotypes"; "/exp/2/phenotypes";
                      "/exp/2/descriptors"]) by (vm_compute; reflexivity).
    rewrite Hd in Hrun. by injection Hrun.
Defined.

End FurtherConcrete.
